(** * notebooks/02-submit.ipynb: ad-hoc computations with futures

    A shallow embedding of the notebook's code cells:
    - cells 2-4 (and 21): the sequential pairwise-correlation pipeline
      (sorted file list, loading loop, double loop, [max] reduction);
    - cells 9-13: [slowadd], one submitted future, and the sequential and
      the submitted list of ten calls;
    - cell 16: the sequential [slowadd]/[slowsub] exercise.

    Python values are modelled as follows: [str] is [string] (the bytes of
    its UTF-8 encoding, whose bytewise order is the order of code points),
    [int] is [Z], [float] is the kernel's binary64 [float], a [dict] whose
    iteration order is observed is an insertion-ordered association list, a
    [dict] that is only indexed is a [gmap], and a call that may raise
    returns an [outcome]. *)

From Stdlib Require Import ZArith String Ascii List Floats Sorted Permutation Lia.
From stdpp Require Import gmap strings list sorting relations.

#[local] Set Warnings "-clear-no-such-hyp".
Local Open Scope Z_scope.

(** ** Python-level notions *)

Module Py.

(** Exceptions that the modelled cells can raise. *)
Inductive exn : Type :=
| ValueError (msg : string)
| KeyError (key : string)
| OSError (path : string).

(** The result of evaluating a Python expression: a value, or a raised
    exception that unwinds to the caller. *)
Inductive outcome (A : Type) : Type :=
| Returned (v : A)
| Raised (e : exn).
Arguments Returned {A} v.
Arguments Raised {A} e.

#[export] Instance outcome_ret : MRet outcome := fun A v => Returned v.
#[export] Instance outcome_bind : MBind outcome := fun A B f o =>
  match o with
  | Returned v => f v
  | Raised e => Raised e
  end.
#[export] Instance outcome_fmap : FMap outcome := fun A B f o =>
  match o with
  | Returned v => Returned (f v)
  | Raised e => Raised e
  end.

(** [range(n)] *)
Definition range (n : Z) : list Z := seqZ 0 n.

(** A list comprehension [[f(x) for x in xs]]: the calls are made from
    left to right and the first exception ends the comprehension. *)
Fixpoint comprehension {A B : Type} (f : A → outcome B) (xs : list A) : outcome (list B) :=
  match xs with
  | [] => Returned []
  | x :: rest =>
      y ← f x;
      ys ← comprehension f rest;
      mret (y :: ys)
  end.

(** *** [sorted] on a list of [str] *)

(** [a <= b] on [str]: lexicographic on code points. *)
Definition str_le (a b : string) : Prop := String.leb a b = true.

#[export] Instance str_le_dec : RelDecision str_le.
Proof. intros a b. unfold str_le. apply _. Defined.

(** [sorted(l)]: the ascending rearrangement of [l].  Python's sort is
    stable; on [str], equal keys are equal values, so every stable sort
    returns the same list and merge sort stands for it. *)
Definition sorted (l : list string) : list string := merge_sort str_le l.

(** *** [float] comparisons *)

(** [x > y] on [float]: false as soon as one side is NaN. *)
Definition float_gt (x y : float) : bool := PrimFloat.ltb y x.
(** [x >= y] on [float]. *)
Definition float_ge (x y : float) : bool := PrimFloat.leb y x.
(** [x != x], the NaN test. *)
Definition is_nan (x : float) : bool := PrimFloat.is_nan x.

(** *** [dict] with observable iteration order *)

(** Items in insertion order; keys are pairwise distinct. *)
Definition odict (K V : Type) : Type := list (K * V).

(** [d[k] = v]: an existing key keeps its position and gets the new
    value; a new key is appended. *)
Fixpoint setitem `{EqDecision K} {V : Type} (k : K) (v : V) (d : odict K V) : odict K V :=
  match d with
  | [] => [(k, v)]
  | (k', v') :: rest =>
      if decide (k = k') then (k', v) :: rest
      else (k', v') :: setitem k v rest
  end.

(** [d.update(l)] for a list [l] of pairs: the assignments [d[k] = v] for
    its items, one after the other. *)
Definition update `{EqDecision K} {V : Type} (d : odict K V) (l : list (K * V)) : odict K V :=
  foldl (λ d kv, setitem kv.1 kv.2 d) d l.

(** [d.items()] *)
Definition items {K V : Type} (d : odict K V) : list (K * V) := d.

(** [d.keys()] *)
Definition keys {K V : Type} (d : odict K V) : list K := d.*1.

(** *** [max(iterable, key=f)] *)

(** The builtin keeps the first item and replaces it only by an item whose
    key is strictly greater ([key(item) > key(best)]). *)
Fixpoint max_scan {A : Type} (key : A → float) (best : A) (rest : list A) : A :=
  match rest with
  | [] => best
  | x :: rest' =>
      if float_gt (key x) (key best) then max_scan key x rest'
      else max_scan key best rest'
  end.

(** The entry [m] holds a maximum of [l]: its key is [>=] every key. *)
Definition is_max {A : Type} (key : A → float) (l : list A) (m : A) : Prop :=
  ∀ x, x ∈ l → float_ge (key m) (key x) = true.

(** [max] of an empty iterable raises [ValueError]. *)
Definition max_key {A : Type} (key : A → float) (l : list A) : outcome A :=
  match l with
  | [] => Raised (ValueError "max() arg is an empty sequence")
  | x :: rest => Returned (max_scan key x rest)
  end.

End Py.

(** ** Cells 2-4: the sequential pairwise-correlation pipeline *)

Module Pipeline.
Import Py.

Section Cells.
(** A pandas [Series]; the cells never look inside one. *)
Context {Series : Type}.

(** [pd.read_hdf(fn)]: the data frame stored in file [fn], its columns by
    name, or the exception raised when the file cannot be read. *)
Variable read_hdf : string → outcome (gmap string Series).

(** [x.corr(y)]: pandas' correlation of two series, a [float] (NaN when
    it is undefined, as for a constant series).  It is taken as a function
    of the two series: it reads its operands and writes to neither. *)
Variable corr : Series → Series → float.

(** Cell 2: [filenames = sorted(glob(...))], from the list [glob] returned. *)
Definition filenames (globbed : list string) : list string := sorted globbed.

(** [df[col]] on a data frame *)
Definition column (df : gmap string Series) (col : string) : outcome Series :=
  match df !! col with
  | Some s => Returned s
  | None => Raised (KeyError col)
  end.

(** Cell 3: [for fn in filenames: series[fn] = pd.read_hdf(fn)['close']] *)
Fixpoint load_loop (fns : list string) (series : gmap string Series)
    : outcome (gmap string Series) :=
  match fns with
  | [] => Returned series
  | fn :: rest =>
      df ← read_hdf fn;
      s ← column df "close";
      load_loop rest (<[fn := s]> series)
  end.

(** Cell 3 with its first line, [series = {}]. *)
Definition load (fns : list string) : outcome (gmap string Series) :=
  load_loop fns ∅.

(** The two notebook variables that cell 4 reads and writes. *)
Record namespace : Type := Namespace {
  series : gmap string Series;
  results : odict (string * string) float
}.

(** [series[a]] *)
Definition series_at (ns : namespace) (a : string) : outcome Series :=
  match series ns !! a with
  | Some s => Returned s
  | None => Raised (KeyError a)
  end.

(** Body of the inner loop:
    [if a != b: results[a, b] = series[a].corr(series[b])] *)
Definition corr_body (a b : string) (ns : namespace) : outcome namespace :=
  if decide (a ≠ b) then
    sa ← series_at ns a;
    sb ← series_at ns b;
    mret (Namespace (series ns) (setitem (a, b) (corr sa sb) (results ns)))
  else mret ns.

(** [for b in filenames: ...] *)
Fixpoint inner_loop (a : string) (bs : list string) (ns : namespace) : outcome namespace :=
  match bs with
  | [] => Returned ns
  | b :: rest => ns' ← corr_body a b ns; inner_loop a rest ns'
  end.

(** [for a in filenames: for b in filenames: ...] *)
Fixpoint outer_loop (as_ fns : list string) (ns : namespace) : outcome namespace :=
  match as_ with
  | [] => Returned ns
  | a :: rest => ns' ← inner_loop a fns ns; outer_loop rest fns ns'
  end.

(** Cell 4 up to the reduction: [results = {}] and the double loop. *)
Definition correlate (fns : list string) (ns : namespace) : outcome namespace :=
  outer_loop fns fns (Namespace (series ns) []).

(** Cell 4, the reduction:
    [((a, b), corr) = max(results.items(), key=lambda kv: kv[1])] *)
Definition best_pair (ns : namespace) : outcome (string * string * float) :=
  max_key snd (items (results ns)).

(** Cells 2-4 in sequence: the final namespace and the reported entry. *)
Definition run (globbed : list string) : outcome (namespace * (string * string * float)) :=
  let fns := filenames globbed in
  s ← load fns;
  ns ← correlate fns (Namespace s []);
  best ← best_pair ns;
  mret (ns, best).

(** The task keys with first component [a], in the order of [fns]. *)
Definition row (a : string) (fns : list string) : list (string * string) :=
  b ← fns; if decide (a ≠ b) then [(a, b)] else [].

(** The task keys in the order the double loop visits them: the ordered
    pairs of distinct entries of [fns], row by row. *)
Definition task_keys (fns : list string) : list (string * string) :=
  a ← fns; row a fns.

(** The item [kv] holds the correlation of the two series that its key
    names in [s]. *)
Definition stored (s : gmap string Series) (kv : string * string * float) : Prop :=
  ∃ sa sb, s !! kv.1.1 = Some sa ∧ s !! kv.1.2 = Some sb ∧ kv.2 = corr sa sb.

(** The file [fn] can be read and has a ['close'] column. *)
Definition loads (fn : string) : Prop :=
  ∃ df c, read_hdf fn = Returned df ∧ df !! "close"%string = Some c.

(** [pd.read_hdf(fn)['close']] raises [e]: the file cannot be read, or its
    data frame has no ['close'] column. *)
Definition fails_with (fn : string) (e : exn) : Prop :=
  read_hdf fn = Raised e ∨
  ∃ df, read_hdf fn = Returned df ∧ df !! "close"%string = None ∧ e = KeyError "close".

End Cells.

(** A sample input: a directory of three files, listed by [glob] in some
    order.  The series of [x.h5] is constant, so pandas gives NaN for its
    correlation with any series; the other two series have correlation
    [0.5]. *)
Module Sample.
Definition globbed : list string :=
  ["../data/json/z.h5"; "../data/json/x.h5"; "../data/json/y.h5"]%string.

Definition read_hdf (fn : string) : outcome (gmap string (list Z)) :=
  if decide (fn = "../data/json/x.h5"%string) then
    Returned {[ "close"%string := [1; 1; 1] ]}
  else if decide (fn = "../data/json/y.h5"%string) then
    Returned {[ "close"%string := [1; 2; 3] ]}
  else if decide (fn = "../data/json/z.h5"%string) then
    Returned {[ "close"%string := [1; 3; 2]; "open"%string := [1; 1; 2] ]}
  else Raised (OSError fn).

Definition corr (x y : list Z) : float :=
  if decide (x = [1; 1; 1] ∨ y = [1; 1; 1]) then nan
  else if decide (x = y) then 1%float
  else 0.5%float.

(** The series that cell 3 loads from the three files. *)
Definition loaded : gmap string (list Z) :=
  {[ "../data/json/x.h5"%string := [1; 1; 1];
     "../data/json/y.h5"%string := [1; 2; 3];
     "../data/json/z.h5"%string := [1; 3; 2] ]}.

(** The result mapping that cell 4 builds from them. *)
Definition correlations : odict (string * string) float :=
  [ ("../data/json/x.h5", "../data/json/y.h5", nan);
    ("../data/json/x.h5", "../data/json/z.h5", nan);
    ("../data/json/y.h5", "../data/json/x.h5", nan);
    ("../data/json/y.h5", "../data/json/z.h5", 0.5%float);
    ("../data/json/z.h5", "../data/json/x.h5", nan);
    ("../data/json/z.h5", "../data/json/y.h5", 0.5%float) ]%string.

(** The result mapping of a directory that holds [y.h5] and [z.h5] only. *)
Definition correlations_yz : odict (string * string) float :=
  [ ("../data/json/y.h5", "../data/json/z.h5", 0.5%float);
    ("../data/json/z.h5", "../data/json/y.h5", 0.5%float) ]%string.
End Sample.

End Pipeline.

(** ** Cells 9-16: [slowadd], [slowsub] and the executor *)

Module Futures.
Import Py.

(** [time.sleep(secs)]: raises [ValueError] on a negative length and
    otherwise suspends the calling thread and returns [None]; the
    suspension changes no value. *)
Definition sleep (secs : Z) : outcome unit :=
  if decide (secs < 0) then Raised (ValueError "sleep length must be non-negative")
  else Returned ().

(** Cells 9 and 16: [def slowadd(a, b, delay=1): sleep(delay); return a + b] *)
Definition slowadd (a b delay : Z) : outcome Z :=
  _ ← sleep delay; mret (a + b).

(** Cell 16: [def slowsub(a, b, delay=1): sleep(delay); return a - b] *)
Definition slowsub (a b delay : Z) : outcome Z :=
  _ ← sleep delay; mret (a - b).

(** Cell 12: [results = [slowadd(i, i, delay=1) for i in range(10)]] *)
Definition cell12 : outcome (list Z) :=
  comprehension (λ i, slowadd i i 1) (range 10).

(** *** Cell 16, the sequential exercise *)

(** Body of the inner loop:
    [if i < j: results.append(slowadd(i, j, delay=1))]
    [elif i > j: results.append(slowsub(i, j, delay=1))] *)
Definition exercise_body (i j : Z) (results : list Z) : outcome (list Z) :=
  if decide (i < j) then v ← slowadd i j 1; mret (results ++ [v])
  else if decide (i > j) then v ← slowsub i j 1; mret (results ++ [v])
  else mret results.

(** [for j in range(5): ...] *)
Fixpoint exercise_inner (i : Z) (js : list Z) (results : list Z) : outcome (list Z) :=
  match js with
  | [] => Returned results
  | j :: rest => results' ← exercise_body i j results; exercise_inner i rest results'
  end.

(** [for i in range(5): for j in range(5): ...] *)
Fixpoint exercise_outer (is_ js : list Z) (results : list Z) : outcome (list Z) :=
  match is_ with
  | [] => Returned results
  | i :: rest => results' ← exercise_inner i js results; exercise_outer rest js results'
  end.

(** Cell 16: [results = []] and the double loop. *)
Definition cell16 : outcome (list Z) :=
  exercise_outer (range 5) (range 5) [].

(** The values of cell 16 as its description enumerates them: row-major
    over [(i, j)], the diagonal skipped, [i + j] above it and [i - j]
    below it. *)
Definition exercise_values (is_ js : list Z) : list Z :=
  i ← is_; j ← js;
  if decide (i < j) then [i + j] else if decide (i > j) then [i - j] else [].

(** *** The executor *)

Section Executor.
(** The type of the values that the submitted calls return. *)
Context {A : Type}.

(** Modelled from the spec: [concurrent.futures] is not part of the
    repository.  A future is pending, then its call runs on a worker,
    then it is fulfilled with the value the call returned or failed with
    the exception it raised. *)
Inductive future_state : Type :=
| Pending (call : unit → outcome A)
| Running (call : unit → outcome A)
| Finished (o : outcome A).

(** Modelled from the spec: an executor is a fixed number of workers and
    the futures submitted so far; a future is named by its position. *)
Record executor : Type := Executor {
  max_workers : nat;
  futures : list future_state
}.

(** Modelled from the spec: [ThreadPoolExecutor(n)], a pool of [n]
    workers with nothing submitted. *)
Definition ThreadPoolExecutor (n : nat) : executor := Executor n [].

(** Modelled from the spec: [e.submit(fn, *args)] records the call as a
    pending future and returns that future; it does not make the call. *)
Definition submit (e : executor) (call : unit → outcome A) : executor * nat :=
  (Executor (max_workers e) (futures e ++ [Pending call]), length (futures e)).

Definition is_running (st : future_state) : bool :=
  match st with Running _ => true | _ => false end.

(** Number of workers that are busy. *)
Definition busy (e : executor) : nat :=
  length (filter (λ st, is_running st = true) (futures e)).

(** Modelled from the spec: what the pool does on its own.  A free worker
    takes some pending call, or a worker finishes the call it is making
    and fulfils (or fails) the future with the call's outcome. *)
Inductive worker_step : executor → executor → Prop :=
| worker_takes e k call :
    futures e !! k = Some (Pending call) →
    (busy e < max_workers e)%nat →
    worker_step e (Executor (max_workers e) (<[k := Running call]> (futures e)))
| worker_completes e k call :
    futures e !! k = Some (Running call) →
    worker_step e (Executor (max_workers e) (<[k := Finished (call ())]> (futures e))).

(** The pool runs for a while. *)
Definition workers_run : executor → executor → Prop := rtc worker_step.

(** The pool runs and the main thread submits further calls. *)
Inductive pool_step : executor → executor → Prop :=
| pool_worker e e' : worker_step e e' → pool_step e e'
| pool_submit e call : pool_step e (submit e call).1.

(** What a finished future holds; [None] while a reader has to wait. *)
Definition outcome_of (e : executor) (f : nat) : option (outcome A) :=
  match futures e !! f with
  | Some (Finished o) => Some o
  | _ => None
  end.

(** Modelled from the spec: [f.result()] blocks the caller while the
    pool runs, until the future is finished, and then returns its value
    or raises its exception. *)
Definition result (e : executor) (f : nat) (o : outcome A) (e' : executor) : Prop :=
  workers_run e e' ∧ outcome_of e' f = Some o.

(** [[e.submit(...) for x in xs]]; the pool may run between submissions. *)
Inductive submit_each {X : Type} (call_of : X → unit → outcome A)
    : list X → executor → list nat → executor → Prop :=
| submit_each_nil e e' :
    workers_run e e' → submit_each call_of [] e [] e'
| submit_each_cons x xs e e1 fs e2 :
    workers_run e e1 →
    submit_each call_of xs (submit e1 (call_of x)).1 fs e2 →
    submit_each call_of (x :: xs) e ((submit e1 (call_of x)).2 :: fs) e2.

(** [[f.result() for f in fs]]; the first exception ends the comprehension. *)
Inductive result_each : list nat → executor → outcome (list A) → executor → Prop :=
| result_each_nil e : result_each [] e (Returned []) e
| result_each_returned f fs e e1 v r e2 :
    result e f (Returned v) e1 →
    result_each fs e1 r e2 →
    result_each (f :: fs) e ((v ::.) <$> r) e2
| result_each_raised f fs e e1 x :
    result e f (Raised x) e1 →
    result_each (f :: fs) e (Raised x) e1.

(** The future [f] of [e] stands for [call]: it is pending or running
    with that call, or finished with the call's outcome. *)
Definition tracks (e : executor) (f : nat) (call : unit → outcome A) : Prop :=
  futures e !! f = Some (Pending call) ∨
  futures e !! f = Some (Running call) ∨
  futures e !! f = Some (Finished (call ())).

(** The busy workers finish the calls they are making. *)
Definition complete (st : future_state) : future_state :=
  match st with
  | Running call => Finished (call ())
  | _ => st
  end.

(** A schedule that finishes everything: each unfinished call is made. *)
Definition settle (st : future_state) : future_state :=
  match st with
  | Pending call | Running call => Finished (call ())
  | Finished o => Finished o
  end.

Definition drain (e : executor) : executor :=
  Executor (max_workers e) (settle <$> futures e).

(** [[e.submit(...) for x in xs]] with the pool idle meanwhile: the
    executor afterwards and the futures, in order. *)
Fixpoint submit_all {X : Type} (call_of : X → unit → outcome A) (xs : list X) (e : executor)
    : executor * list nat :=
  match xs with
  | [] => (e, [])
  | x :: rest =>
      let r := submit_all call_of rest (submit e (call_of x)).1 in
      (r.1, (submit e (call_of x)).2 :: r.2)
  end.

End Executor.

Arguments future_state : clear implicits.
Arguments executor : clear implicits.

(** Cell 9: [e = ThreadPoolExecutor(4)] *)
Definition e : executor Z := ThreadPoolExecutor 4.

(** Cell 9: [future = e.submit(slowadd, 1, 2)] *)
Definition cell9 (e0 : executor Z) : executor Z * nat :=
  submit e0 (λ _, slowadd 1 2 1).

(** Cell 13:
    [futures = [e.submit(slowadd, 1, 1, delay=1) for i in range(10)]]
    [results = [f.result() for f in futures]] *)
Definition cell13 (e0 : executor Z) (results : outcome (list Z)) (e' : executor Z) : Prop :=
  ∃ fs e1,
    submit_each (λ (i : Z) (_ : unit), slowadd 1 1 1) (range 10) e0 fs e1 ∧
    result_each fs e1 results e'.

(** The pattern of cell 13 for any calls:
    [futures = [e.submit(...) for x in xs]]
    [results = [f.result() for f in futures]] *)
Definition gather {A X : Type} (call_of : X → unit → outcome A) (xs : list X)
    (e0 : executor A) (results : outcome (list A)) (e' : executor A) : Prop :=
  ∃ fs e1, submit_each call_of xs e0 fs e1 ∧ result_each fs e1 results e'.

End Futures.

(** * Properties *)

(** ** Facts about the Python-level notions *)

Module PyFacts.
Import Py.

Lemma bind_Returned {A B} (f : A → outcome B) (o : outcome A) (y : B) :
  o ≫= f = Returned y ↔ ∃ x, o = Returned x ∧ f x = Returned y.
Proof.
  destruct o as [x|e]; simpl; split.
  - eauto.
  - by intros (x' & [= ->] & ?).
  - done.
  - by intros (x' & ? & ?).
Qed.

(** *** [str] is totally ordered, so [sorted] depends on the multiset only *)

Lemma str_compare_trans a : ∀ b c,
  String.compare a b ≠ Gt → String.compare b c ≠ Gt → String.compare a c ≠ Gt.
Proof.
  induction a as [|x a IH]; intros [|y b] [|z c]; simpl; try congruence.
  unfold Ascii.compare.
  destruct (N.compare_spec (N_of_ascii x) (N_of_ascii y)) as [Hxy|Hxy|Hxy];
    destruct (N.compare_spec (N_of_ascii y) (N_of_ascii z)) as [Hyz|Hyz|Hyz];
    destruct (N.compare_spec (N_of_ascii x) (N_of_ascii z)) as [Hxz|Hxz|Hxz];
    try congruence; try lia; eauto.
Qed.

#[export] Instance str_le_trans : Transitive str_le.
Proof.
  intros a b c. unfold str_le, String.leb.
  pose proof (str_compare_trans a b c).
  destruct (String.compare a b), (String.compare b c), (String.compare a c);
    intuition congruence.
Qed.

#[export] Instance str_le_total : Total str_le.
Proof. intros a b. apply String.leb_total. Qed.

#[export] Instance str_le_antisym : AntiSymm (=) str_le.
Proof. intros a b. apply String.leb_antisym. Qed.

Lemma sorted_Sorted l : Sorted str_le (sorted l).
Proof. apply (Sorted_merge_sort str_le). Qed.

Lemma sorted_Permutation l : sorted l ≡ₚ l.
Proof. apply merge_sort_Permutation. Qed.

Lemma sorted_of_Permutation l1 l2 : l1 ≡ₚ l2 → sorted l1 = sorted l2.
Proof.
  intros Hp. apply (Sorted_unique str_le); try apply sorted_Sorted.
  by rewrite !sorted_Permutation.
Qed.

(** *** The order of [float] away from NaN *)

Ltac sf_cases :=
  repeat match goal with
  | |- context [Z.compare ?x ?y] => destruct (Z.compare_spec x y)
  | |- context [Pos.compare_cont Eq ?x ?y] =>
      change (Pos.compare_cont Eq x y) with (Pos.compare x y);
      destruct (Pos.compare_spec x y)
  end; simpl; try done; try lia.

Ltac sf_destruct x := destruct x as [[]|[]| |[] ? ?].

Lemma SFcompare_refl x : x ≠ S754_nan → SFcompare x x = Some Eq.
Proof.
  destruct x as [[]|[]| |[] m e]; simpl; try done;
    intros _; rewrite Z.compare_refl;
    change (Pos.compare_cont Eq m m) with (Pos.compare m m);
    by rewrite Pos.compare_refl.
Qed.

Lemma SFleb_total x y :
  x ≠ S754_nan → y ≠ S754_nan → SFltb x y = false → SFleb y x = true.
Proof.
  unfold SFltb, SFleb. sf_destruct x; sf_destruct y; simpl; try done; intros _ _; sf_cases.
Qed.

Lemma SFleb_trans x y z : SFleb x y = true → SFleb y z = true → SFleb x z = true.
Proof.
  unfold SFleb. sf_destruct x; sf_destruct y; sf_destruct z; simpl; try done; sf_cases.
Qed.

Lemma SFleb_ltb_trans x y z : SFleb x y = true → SFltb y z = true → SFltb x z = true.
Proof.
  unfold SFltb, SFleb. sf_destruct x; sf_destruct y; sf_destruct z; simpl; try done; sf_cases.
Qed.

Lemma SFltb_trans x y z : SFltb x y = true → SFltb y z = true → SFltb x z = true.
Proof.
  unfold SFltb. sf_destruct x; sf_destruct y; sf_destruct z; simpl; try done; sf_cases.
Qed.

Lemma SFltb_leb x y : SFltb x y = true → SFleb x y = true.
Proof. unfold SFltb, SFleb. by destruct (SFcompare x y) as [[]|]. Qed.

Lemma SFltb_not_leb x y : SFltb x y = true → SFleb y x = false.
Proof.
  unfold SFltb, SFleb. sf_destruct x; sf_destruct y; simpl; try done; sf_cases.
Qed.

Lemma is_nan_spec x : is_nan x = false ↔ Prim2SF x ≠ S754_nan.
Proof.
  unfold is_nan, PrimFloat.is_nan. rewrite FloatAxioms.eqb_spec. unfold SFeqb.
  split.
  - intros H Hn. rewrite Hn in H. done.
  - intros H. by rewrite SFcompare_refl.
Qed.

Lemma float_ge_refl x : is_nan x = false → float_ge x x = true.
Proof.
  intros H%is_nan_spec. unfold float_ge. rewrite FloatAxioms.leb_spec. unfold SFleb.
  by rewrite SFcompare_refl.
Qed.

Lemma float_ge_total x y :
  is_nan x = false → is_nan y = false → float_gt y x = false → float_ge x y = true.
Proof.
  intros Hx%is_nan_spec Hy%is_nan_spec. unfold float_gt, float_ge.
  rewrite FloatAxioms.ltb_spec, FloatAxioms.leb_spec. by apply SFleb_total.
Qed.

Lemma float_ge_trans x y z :
  float_ge z y = true → float_ge y x = true → float_ge z x = true.
Proof.
  unfold float_ge. rewrite !FloatAxioms.leb_spec. intros ? ?. by apply SFleb_trans with (Prim2SF y).
Qed.

Lemma float_gt_ge x y : float_gt x y = true → float_ge x y = true.
Proof.
  unfold float_gt, float_ge. rewrite FloatAxioms.ltb_spec, FloatAxioms.leb_spec.
  apply SFltb_leb.
Qed.

Lemma float_gt_trans x y z :
  float_gt z y = true → float_gt y x = true → float_gt z x = true.
Proof.
  unfold float_gt. rewrite !FloatAxioms.ltb_spec. intros ? ?.
  by apply SFltb_trans with (Prim2SF y).
Qed.

Lemma float_gt_ge_trans x y z :
  float_gt z y = true → float_ge y x = true → float_gt z x = true.
Proof.
  unfold float_gt, float_ge. rewrite !FloatAxioms.ltb_spec, FloatAxioms.leb_spec.
  intros ? ?. by apply SFleb_ltb_trans with (Prim2SF y).
Qed.

Lemma float_gt_not_ge x y : float_gt x y = true → float_ge y x = false.
Proof.
  unfold float_gt, float_ge. rewrite FloatAxioms.ltb_spec, FloatAxioms.leb_spec.
  apply SFltb_not_leb.
Qed.

Lemma float_ge_not_nan x y : float_ge x y = true → is_nan x = false ∧ is_nan y = false.
Proof.
  unfold float_ge. rewrite FloatAxioms.leb_spec, !is_nan_spec. unfold SFleb.
  destruct (Prim2SF x), (Prim2SF y); simpl; try done.
Qed.

(** *** Assignments to a [dict] *)

Section OrderedDict.
Context `{EqDecision K} {V : Type}.
Implicit Types (d : odict K V) (k : K) (v : V).

Lemma setitem_fresh k v d : k ∉ keys d → setitem k v d = d ++ [(k, v)].
Proof.
  unfold keys. induction d as [|[k' v'] d IH]; simpl; [done|].
  rewrite not_elem_of_cons. intros [Hne Hnotin].
  rewrite decide_False by done. by rewrite IH.
Qed.

Lemma keys_setitem k v d k0 : k0 ∈ keys (setitem k v d) ↔ k0 = k ∨ k0 ∈ keys d.
Proof.
  unfold keys. induction d as [|[k' v'] d IH]; simpl.
  - set_solver.
  - case_decide; subst; simpl; rewrite ?elem_of_cons, ?IH; intuition congruence.
Qed.

Lemma keys_setitem_NoDup k v d : NoDup (keys d) → NoDup (keys (setitem k v d)).
Proof.
  unfold keys. induction d as [|[k' v'] d IH]; simpl.
  - intros _. apply NoDup_singleton.
  - rewrite NoDup_cons. intros [Hnotin Hnd].
    case_decide; subst; simpl; apply NoDup_cons; split; auto.
    intros [?|?]%(keys_setitem k v d k'); [congruence|done].
Qed.

Lemma elem_of_setitem k v d kv : kv ∈ setitem k v d → kv = (k, v) ∨ kv ∈ d.
Proof.
  induction d as [|[k' v'] d IH]; simpl.
  - set_solver.
  - case_decide; subst; rewrite !elem_of_cons; intuition congruence.
Qed.

Lemma update_app d l1 l2 : update d (l1 ++ l2) = update (update d l1) l2.
Proof. apply foldl_app. Qed.

Lemma update_fresh l : ∀ d, NoDup (keys d ++ l.*1) → update d l = d ++ l.
Proof.
  unfold update. induction l as [|[k v] l IH]; intros d; simpl.
  - intros _. by rewrite app_nil_r.
  - intros Hnd. rewrite setitem_fresh.
    + rewrite IH; [by rewrite <- app_assoc|].
      unfold keys in *. rewrite fmap_app. simpl. by rewrite <- app_assoc.
    + apply NoDup_app in Hnd as (_ & Hd & _). intros Hin. apply (Hd _ Hin). simpl. left.
Qed.

Lemma keys_update l : ∀ d k0, k0 ∈ keys (update d l) ↔ k0 ∈ keys d ∨ k0 ∈ l.*1.
Proof.
  unfold update. induction l as [|[k v] l IH]; intros d k0; simpl.
  - set_solver.
  - rewrite IH, keys_setitem, elem_of_cons. simpl. tauto.
Qed.

Lemma keys_update_NoDup l : ∀ d, NoDup (keys d) → NoDup (keys (update d l)).
Proof.
  unfold update. induction l as [|[k v] l IH]; intros d Hnd; simpl; [done|].
  by apply IH, keys_setitem_NoDup.
Qed.

Lemma elem_of_update l : ∀ d kv, kv ∈ update d l → kv ∈ d ∨ kv ∈ l.
Proof.
  unfold update. induction l as [|[k v] l IH]; intros d kv; simpl; [auto|].
  intros [Hin|Hin]%IH; [|set_solver].
  apply elem_of_setitem in Hin. set_solver.
Qed.
End OrderedDict.

(** *** The scan of [max] *)

Section Max.
Context {A : Type} (key : A → float).

Lemma max_scan_elem l : ∀ best, max_scan key best l ∈ best :: l.
Proof.
  induction l as [|x l IH]; intros best; simpl; [left|].
  destruct (float_gt (key x) (key best)).
  - right. apply IH.
  - specialize (IH best). apply elem_of_cons in IH as [->|?]; [left|by do 2 right].
Qed.

Lemma max_scan_ge l : ∀ best,
  (∀ x, x ∈ best :: l → is_nan (key x) = false) →
  is_max key (best :: l) (max_scan key best l).
Proof.
  induction l as [|y l IH]; intros best Hnan x; simpl.
  - intros ->%list_elem_of_singleton. apply float_ge_refl, Hnan. left.
  - assert (Hy : ∀ z, z ∈ y :: l → is_nan (key z) = false).
    { intros z Hz. apply Hnan. by right. }
    assert (Hb : ∀ z, z ∈ best :: l → is_nan (key z) = false).
    { intros z [->|Hz]%elem_of_cons; apply Hnan; [left|by do 2 right]. }
    destruct (float_gt (key y) (key best)) eqn:Hgt.
    + intros [->|Hin]%elem_of_cons; [|by apply IH].
      apply float_ge_trans with (key y); [apply IH; [done|left]|by apply float_gt_ge].
    + intros [->|[->|Hin]%elem_of_cons]%elem_of_cons.
      * apply IH; [done|left].
      * apply float_ge_trans with (key best); [apply IH; [done|left]|].
        apply float_ge_total; [apply Hb; left|apply Hy; left|done].
      * apply IH; [done|by right].
Qed.

(** Everything that comes before the returned entry is strictly below it. *)
Lemma max_scan_first l : ∀ best seen skipped,
  (∀ x, x ∈ seen ++ best :: skipped ++ l → is_nan (key x) = false) →
  (∀ x, x ∈ seen → float_gt (key best) (key x) = true) →
  (∀ x, x ∈ skipped → float_ge (key best) (key x) = true) →
  ∃ pre post,
    seen ++ best :: skipped ++ l = pre ++ max_scan key best l :: post ∧
    ∀ x, x ∈ pre → float_gt (key (max_scan key best l)) (key x) = true.
Proof.
  induction l as [|y l IH]; intros best seen skipped Hnan Hseen Hskip; simpl.
  - exists seen, skipped. by rewrite app_nil_r.
  - destruct (float_gt (key y) (key best)) eqn:Hgt.
    + destruct (IH y (seen ++ best :: skipped) []) as (pre & post & Heq & Hpre).
      * intros x Hx. apply Hnan. by rewrite <- app_assoc in Hx.
      * intros x [Hx|[->|Hx]%elem_of_cons]%elem_of_app.
        -- apply float_gt_trans with (key best); auto.
        -- done.
        -- apply float_gt_ge_trans with (key best); auto.
      * intros x Hx. by apply elem_of_nil in Hx.
      * exists pre, post. split; [|done]. rewrite <- Heq. by rewrite <- app_assoc.
    + destruct (IH best seen (skipped ++ [y])) as (pre & post & Heq & Hpre).
      * intros x Hx. apply Hnan. by rewrite <- app_assoc in Hx.
      * done.
      * intros x [Hx|Hx%list_elem_of_singleton]%elem_of_app; [auto|]. subst x.
        apply float_ge_total; [| |done]; apply Hnan; set_solver.
      * exists pre, post. split; [|done]. rewrite <- Heq. by rewrite <- app_assoc.
Qed.
End Max.

End PyFacts.

(** ** The pipeline of cells 2-4 *)

Module PipelineFacts.
Import Py PyFacts Pipeline.

(** *** The task keys *)

Section TaskKeys.
Implicit Types (a b : string) (fns : list string).

Lemma elem_of_row a fns k : k ∈ row a fns ↔ k.1 = a ∧ k.2 ∈ fns ∧ k.1 ≠ k.2.
Proof.
  unfold row. rewrite list_elem_of_bind. split.
  - intros (b & Hk & Hb). case_decide; [|by apply elem_of_nil in Hk].
    apply list_elem_of_singleton in Hk as ->. done.
  - destruct k as [a' b]. simpl. intros (-> & Hb & Hne). exists b.
    rewrite decide_True by done. split; [left|done].
Qed.

Lemma elem_of_task_keys fns a b : (a, b) ∈ task_keys fns ↔ a ∈ fns ∧ b ∈ fns ∧ a ≠ b.
Proof.
  unfold task_keys. rewrite list_elem_of_bind. split.
  - intros (a' & Hrow & Ha). apply elem_of_row in Hrow as (Heq & Hb & Hne).
    simpl in *. by subst a'.
  - intros (Ha & Hb & Hne). exists a. split; [|done]. by apply (elem_of_row a fns (a, b)).
Qed.

Lemma row_NoDup a fns : NoDup fns → NoDup (row a fns).
Proof.
  intros Hnd. apply NoDup_bind; [| |done].
  - intros b1 b2 k _ _ H1 H2. repeat case_decide; try by apply elem_of_nil in H1.
    + apply list_elem_of_singleton in H1, H2. congruence.
    + by apply elem_of_nil in H2.
  - intros b _. case_decide; [apply NoDup_singleton|apply NoDup_nil_2].
Qed.

Lemma task_keys_NoDup fns : NoDup fns → NoDup (task_keys fns).
Proof.
  intros Hnd. apply NoDup_bind; [| |done].
  - intros a1 a2 k _ _ [H1 _]%elem_of_row [H2 _]%elem_of_row. congruence.
  - intros a _. by apply row_NoDup.
Qed.

Lemma row_length a fns :
  NoDup fns → a ∈ fns → S (length (row a fns)) = length fns.
Proof.
  unfold row. induction fns as [|b fns IH]; simpl.
  - intros _ Ha. by apply elem_of_nil in Ha.
  - rewrite NoDup_cons. intros [Hb Hnd] Ha. rewrite length_app.
    destruct (decide (a = b)) as [->|Hne].
    + rewrite decide_False by (intros ?; done). simpl. f_equal.
      clear IH Ha Hnd. induction fns as [|c fns IH]; simpl; [done|].
      apply not_elem_of_cons in Hb as [Hne Hb]. rewrite length_app, decide_True by done.
      simpl. by rewrite IH.
    + rewrite decide_True by done. simpl. f_equal. apply IH; [done|].
      by apply elem_of_cons in Ha as [?|?].
Qed.

Lemma task_keys_length fns :
  NoDup fns → length (task_keys fns) = (length fns * (length fns - 1))%nat.
Proof.
  intros Hnd. unfold task_keys.
  assert (∀ l, l ⊆ fns →
    length (l ≫= λ a, row a fns) = (length l * (length fns - 1))%nat) as Hrows.
  { induction l as [|a l IH]; intros Hl; [done|].
    rewrite bind_cons, length_app, IH by set_solver.
    assert (a ∈ fns) as Ha by set_solver.
    pose proof (row_length a fns Hnd Ha). simpl. lia. }
  by apply Hrows.
Qed.
End TaskKeys.

(** *** The loading loop *)

Section Loading.
Context {Series : Type}.
Variable read_hdf : string → outcome (gmap string Series).

Lemma column_Returned (df : gmap string Series) col s :
  column df col = Returned s ↔ df !! col = Some s.
Proof. unfold column. destruct (df !! col); split; congruence. Qed.

Lemma load_loop_spec fns : ∀ (s s' : gmap string Series),
  load_loop read_hdf fns s = Returned s' →
  dom s' = list_to_set fns ∪ dom s ∧
  (∀ fn, fn ∈ fns → ∃ df c,
      read_hdf fn = Returned df ∧ df !! "close"%string = Some c ∧ s' !! fn = Some c) ∧
  (∀ fn, fn ∉ fns → s' !! fn = s !! fn).
Proof.
  induction fns as [|fn0 fns IH]; intros s s'; simpl.
  - intros [= ->]. split_and!; [set_solver| |done]. intros fn Hin. by apply elem_of_nil in Hin.
  - intros (df & Hread & (c & Hcol%column_Returned & Hrest)%bind_Returned)%bind_Returned.
    destruct (IH _ _ Hrest) as (Hdom & Hin & Hout). split_and!.
    + rewrite Hdom, dom_insert_L. set_solver.
    + intros fn [->|Hfn]%elem_of_cons; [|by apply Hin].
      destruct (decide (fn0 ∈ fns)) as [Hfn|Hfn]; [by apply Hin|].
      exists df, c. split_and!; [done..|]. by rewrite Hout, lookup_insert_eq.
    + intros fn [Hne Hfn]%not_elem_of_cons. by rewrite Hout, lookup_insert_ne.
Qed.

Lemma load_loop_total fns : ∀ (s : gmap string Series),
  (∀ fn, fn ∈ fns → ∃ df c, read_hdf fn = Returned df ∧ df !! "close"%string = Some c) →
  ∃ s', load_loop read_hdf fns s = Returned s'.
Proof.
  induction fns as [|fn0 fns IH]; intros s Hok; simpl; [eauto|].
  destruct (Hok fn0) as (df & c & -> & Hc); [left|]. simpl.
  apply column_Returned in Hc as ->. simpl. apply IH. intros fn Hfn. apply Hok. by right.
Qed.
End Loading.

(** *** The double loop *)

Section Correlation.
Context {Series : Type}.
Variable corr : Series → Series → float.
Implicit Types (ns : @namespace Series) (a b : string) (fns : list string).

Lemma series_at_Returned ns a s : series_at ns a = Returned s ↔ series ns !! a = Some s.
Proof. unfold series_at. destruct (series ns !! a); split; congruence. Qed.

Lemma corr_body_spec a b ns ns' :
  corr_body corr a b ns = Returned ns' →
  series ns' = series ns ∧
  ∃ vs, results ns' = update (results ns) vs ∧
        vs.*1 = (if decide (a ≠ b) then [(a, b)] else []) ∧
        Forall (stored corr (series ns)) vs.
Proof.
  unfold corr_body. case_decide as Hne.
  - intros (sa & Ha%series_at_Returned & (sb & Hb%series_at_Returned & [= <-])%bind_Returned)%bind_Returned.
    split; [done|]. exists [(a, b, corr sa sb)]. split_and!; [done..|].
    apply Forall_singleton. by exists sa, sb.
  - intros [= <-]. split; [done|]. by exists [].
Qed.

Lemma inner_loop_spec a bs : ∀ ns ns',
  inner_loop corr a bs ns = Returned ns' →
  series ns' = series ns ∧
  ∃ vs, results ns' = update (results ns) vs ∧ vs.*1 = row a bs ∧
        Forall (stored corr (series ns)) vs.
Proof.
  induction bs as [|b bs IH]; intros ns ns'; simpl.
  - intros [= <-]. split; [done|]. by exists [].
  - intros (ns1 & Hbody & Hrest)%bind_Returned.
    apply corr_body_spec in Hbody as (Hs1 & vs1 & Hr1 & Hk1 & Hv1).
    apply IH in Hrest as (Hs2 & vs2 & Hr2 & Hk2 & Hv2).
    split; [congruence|]. exists (vs1 ++ vs2). split_and!.
    + by rewrite update_app, <- Hr1.
    + by rewrite fmap_app, Hk1, Hk2.
    + apply Forall_app. split; [done|]. by rewrite <- Hs1.
Qed.

Lemma outer_loop_spec as_ fns : ∀ ns ns',
  outer_loop corr as_ fns ns = Returned ns' →
  series ns' = series ns ∧
  ∃ vs, results ns' = update (results ns) vs ∧ vs.*1 = (as_ ≫= λ a, row a fns) ∧
        Forall (stored corr (series ns)) vs.
Proof.
  induction as_ as [|a as_ IH]; intros ns ns'; simpl.
  - intros [= <-]. split; [done|]. by exists [].
  - intros (ns1 & Hinner & Hrest)%bind_Returned.
    apply inner_loop_spec in Hinner as (Hs1 & vs1 & Hr1 & Hk1 & Hv1).
    apply IH in Hrest as (Hs2 & vs2 & Hr2 & Hk2 & Hv2).
    split; [congruence|]. exists (vs1 ++ vs2). split_and!.
    + by rewrite update_app, <- Hr1.
    + by rewrite fmap_app, Hk1, Hk2.
    + apply Forall_app. split; [done|]. by rewrite <- Hs1.
Qed.

Lemma correlate_spec fns ns ns' :
  correlate corr fns ns = Returned ns' →
  series ns' = series ns ∧
  ∃ vs, results ns' = update [] vs ∧ vs.*1 = task_keys fns ∧
        Forall (stored corr (series ns)) vs.
Proof. unfold correlate. intros H. by apply outer_loop_spec in H. Qed.

(** The loops run to their end when every file name has its series. *)
Lemma inner_loop_total a bs : ∀ ns,
  (∀ fn, fn ∈ a :: bs → is_Some (series ns !! fn)) →
  ∃ ns', inner_loop corr a bs ns = Returned ns'.
Proof.
  induction bs as [|b bs IH]; intros ns Hs; simpl; [eauto|].
  assert (∃ ns1, corr_body corr a b ns = Returned ns1 ∧ series ns1 = series ns)
    as (ns1 & -> & Hs1).
  { unfold corr_body, series_at. case_decide; [|eauto].
    destruct (Hs a) as [sa ->]; [left|]. destruct (Hs b) as [sb ->]; [right; left|].
    simpl. eauto. }
  simpl. apply IH. intros fn Hfn. rewrite Hs1. apply Hs. set_solver.
Qed.

Lemma outer_loop_total as_ fns : ∀ ns,
  (∀ fn, fn ∈ as_ ++ fns → is_Some (series ns !! fn)) →
  ∃ ns', outer_loop corr as_ fns ns = Returned ns'.
Proof.
  induction as_ as [|a as_ IH]; intros ns Hs; simpl; [eauto|].
  destruct (inner_loop_total a fns ns) as [ns1 Hinner]; [intros fn Hfn; apply Hs; set_solver|].
  rewrite Hinner. simpl. apply IH. intros fn Hfn.
  apply inner_loop_spec in Hinner as [-> _]. apply Hs. set_solver.
Qed.

Lemma correlate_total fns ns :
  (∀ fn, fn ∈ fns → is_Some (series ns !! fn)) →
  ∃ ns', correlate corr fns ns = Returned ns'.
Proof. intros Hs. apply outer_loop_total. simpl. intros fn Hfn. apply Hs. set_solver. Qed.
End Correlation.


End PipelineFacts.

(** ** [slowadd], [slowsub] and the executor *)

Module FuturesFacts.
Import Py PyFacts Futures.

(** *** Futures stand for their calls *)

Section ExecutorFacts.
Context {A : Type}.
Implicit Types (e : executor A) (call : unit → outcome A) (st : future_state A) (f k : nat).

Lemma worker_step_max_workers e e' : worker_step e e' → max_workers e' = max_workers e.
Proof. by intros []. Qed.

Lemma worker_step_tracks e e' f call : worker_step e e' → tracks e f call → tracks e' f call.
Proof.
  unfold tracks. intros [e0 k c Hk Hfree|e0 k c Hk] Hf; simpl;
    (destruct (decide (k = f)) as [->|Hne];
     [rewrite list_lookup_insert_eq by (by eapply lookup_lt_Some);
      rewrite Hk in Hf; destruct Hf as [[= ->]|[[= ->]|[=]]]; auto
     |by rewrite list_lookup_insert_ne]).
Qed.

Lemma submit_tracks_old e call0 f call :
  tracks e f call → tracks (submit e call0).1 f call.
Proof.
  unfold tracks. simpl. intros Hf.
  assert (f < length (futures e))%nat.
  { destruct Hf as [Hf|[Hf|Hf]]; by eapply lookup_lt_Some. }
  by rewrite lookup_app_l.
Qed.

Lemma submit_tracks_new e call : tracks (submit e call).1 (submit e call).2 call.
Proof. left. simpl. by rewrite list_lookup_middle. Qed.

Lemma pool_step_tracks e e' f call : pool_step e e' → tracks e f call → tracks e' f call.
Proof.
  intros [e0 e1 Hw|e0 c].
  - by apply worker_step_tracks.
  - apply submit_tracks_old.
Qed.

Lemma pool_step_max_workers e e' : pool_step e e' → max_workers e' = max_workers e.
Proof. intros [e0 e1 Hw|e0 c]; [by apply worker_step_max_workers|done]. Qed.

Lemma pool_run_tracks e e' f call : rtc pool_step e e' → tracks e f call → tracks e' f call.
Proof. induction 1; eauto using pool_step_tracks. Qed.

Lemma pool_run_max_workers e e' : rtc pool_step e e' → max_workers e' = max_workers e.
Proof.
  induction 1 as [|e0 e1 e2 Hstep _ IH]; [done|].
  by rewrite IH, (pool_step_max_workers _ _ Hstep).
Qed.

Lemma workers_run_pool e e' : workers_run e e' → rtc pool_step e e'.
Proof. apply rtc_subrel. intros ? ?. apply pool_worker. Qed.

Lemma workers_run_tracks e e' f call : workers_run e e' → tracks e f call → tracks e' f call.
Proof. intros ?%workers_run_pool. by apply pool_run_tracks. Qed.

(** A finished future holds the outcome of the call it stands for. *)
Lemma tracks_outcome e f call o : tracks e f call → outcome_of e f = Some o → o = call ().
Proof.
  unfold tracks, outcome_of. intros [-> | [-> | ->]]; congruence.
Qed.

Lemma tracks_drain e f call : tracks e f call → outcome_of (drain e) f = Some (call ()).
Proof.
  unfold tracks, outcome_of, drain. simpl. rewrite list_lookup_fmap.
  by intros [-> | [-> | ->]].
Qed.

(** *** The schedule [drain] is one the pool can follow *)

Lemma insert_middle (pre post : list (future_state A)) st st' :
  <[length pre := st']> (pre ++ st :: post) = pre ++ st' :: post.
Proof. rewrite insert_app_r_alt by lia. by rewrite Nat.sub_diag. Qed.

Lemma complete_running n (pre post : list (future_state A)) :
  workers_run (Executor n (pre ++ post)) (Executor n (pre ++ (complete <$> post))).
Proof.
  revert pre. induction post as [|st post IH]; intros pre; [done|].
  rewrite fmap_cons, (cons_middle st), (cons_middle (complete st)), !app_assoc.
  destruct st as [c|c|o]; simpl; try apply IH.
  eapply rtc_l; [|apply IH].
  pose proof (worker_completes (Executor n ((pre ++ [Running c]) ++ post)) (length pre) c) as Hstep.
  simpl in Hstep. rewrite <- (app_assoc pre), <- cons_middle in Hstep.
  rewrite list_lookup_middle, insert_middle in Hstep by done.
  rewrite <- !app_assoc, <- !cons_middle. by apply Hstep.
Qed.

Lemma busy_none n (l : list (future_state A)) :
  Forall (λ st, is_running st = false) l → busy (Executor n l) = 0%nat.
Proof.
  unfold busy. simpl. induction 1 as [|st l Hst _ IH]; [done|].
  rewrite filter_cons_False; [done|]. by rewrite Hst.
Qed.

Lemma settle_idle n (pre post : list (future_state A)) :
  (0 < n)%nat →
  Forall (λ st, is_running st = false) (pre ++ post) →
  workers_run (Executor n (pre ++ post)) (Executor n (pre ++ (settle <$> post))).
Proof.
  intros Hn. revert pre. induction post as [|st post IH]; intros pre Hidle; [done|].
  rewrite fmap_cons, (cons_middle (settle st)), app_assoc.
  destruct st as [c|c|o]; simpl.
  - eapply rtc_l; [|eapply rtc_l]; last first.
    + apply IH. rewrite <- app_assoc. simpl.
      apply Forall_app in Hidle as [Hpre Hpost]. apply Forall_app. split; [done|].
      apply Forall_cons. split; [done|]. by apply Forall_cons in Hpost as [_ ?].
    + pose proof (worker_completes (Executor n (pre ++ Running c :: post)) (length pre) c) as Hstep.
      simpl in Hstep. rewrite list_lookup_middle, insert_middle in Hstep by done.
      rewrite <- app_assoc. simpl. by apply Hstep.
    + pose proof (worker_takes (Executor n (pre ++ Pending c :: post)) (length pre) c) as Hstep.
      simpl in Hstep. rewrite list_lookup_middle, insert_middle in Hstep by done.
      apply Hstep; [done|]. rewrite busy_none by done. done.
  - apply Forall_app in Hidle as [_ Hpost]. by apply Forall_cons in Hpost as [? _].
  - rewrite (cons_middle (Finished o)), app_assoc in Hidle |- *. by apply IH.
Qed.

Lemma workers_run_drain e : (0 < max_workers e)%nat → workers_run e (drain e).
Proof.
  destruct e as [n l]. unfold drain. simpl. intros Hn.
  etrans; [apply (complete_running n [] l)|]. simpl.
  replace (settle <$> l) with (settle <$> (complete <$> l)).
  - apply (settle_idle n []); [done|]. simpl.
    apply Forall_fmap, Forall_true. by intros [].
  - rewrite <- list_fmap_compose. apply list_fmap_ext. by intros _ [] _.
Qed.
End ExecutorFacts.

(** *** The calls and the comprehensions over futures *)

Lemma slowadd_Returned a b delay : 0 ≤ delay → slowadd a b delay = Returned (a + b).
Proof. intros Hd. unfold slowadd, sleep. by rewrite decide_False by lia. Qed.

Lemma slowsub_Returned a b delay : 0 ≤ delay → slowsub a b delay = Returned (a - b).
Proof. intros Hd. unfold slowsub, sleep. by rewrite decide_False by lia. Qed.

Lemma exercise_inner_values i js : ∀ results,
  exercise_inner i js results =
  Returned (results ++
    (js ≫= λ j, if decide (i < j) then [i + j] else if decide (i > j) then [i - j] else [])).
Proof.
  induction js as [|j js IH]; intros results; simpl.
  - by rewrite app_nil_r.
  - unfold exercise_body. repeat case_decide;
      rewrite ?slowadd_Returned, ?slowsub_Returned by lia; simpl;
      rewrite IH; by rewrite <- ?app_assoc.
Qed.

Lemma exercise_outer_values is_ js : ∀ results,
  exercise_outer is_ js results = Returned (results ++ exercise_values is_ js).
Proof.
  unfold exercise_values. induction is_ as [|i is_ IH]; intros results; simpl.
  - by rewrite app_nil_r.
  - rewrite exercise_inner_values. simpl. rewrite IH. by rewrite <- app_assoc.
Qed.

Section Gathering.
Context {A : Type}.
Implicit Types (e : executor A) (call : unit → outcome A) (f : nat).

Lemma submit_each_pool {X} (call_of : X → unit → outcome A) xs e fs e' :
  submit_each call_of xs e fs e' → rtc pool_step e e'.
Proof.
  induction 1 as [e e' Hrun|x xs e e1 fs e2 Hrun _ IH].
  - by apply workers_run_pool.
  - etrans; [by apply workers_run_pool|]. eapply rtc_l; [apply pool_submit|done].
Qed.

Lemma submit_each_tracks {X} (call_of : X → unit → outcome A) xs e fs e' :
  submit_each call_of xs e fs e' →
  Forall2 (λ x f, tracks e' f (call_of x)) xs fs.
Proof.
  induction 1 as [e e' Hrun|x xs e e1 fs e2 Hrun Hrest IH]; constructor; [|done].
  eapply pool_run_tracks; [by eapply submit_each_pool|]. apply submit_tracks_new.
Qed.

Lemma result_each_outcomes fs e r e' :
  result_each fs e r e' →
  ∀ calls, Forall2 (λ call f, tracks e f call) calls fs →
  r = comprehension (λ call, call ()) calls.
Proof.
  induction 1 as [e|f fs e e1 v r e2 [Hrun Hout] _ IH|f fs e e1 x [Hrun Hout]];
    intros calls Hcalls.
  - by apply Forall2_nil_inv_r in Hcalls as ->.
  - apply Forall2_cons_inv_r in Hcalls as (call & calls' & Hcall & Hcalls & ->). simpl.
    rewrite <- (tracks_outcome e1 f call (Returned v)) by eauto using workers_run_tracks.
    simpl. rewrite <- (IH calls'); [done|].
    eapply Forall2_impl; [done|]. intros c f' Hc. by eapply workers_run_tracks.
  - apply Forall2_cons_inv_r in Hcalls as (call & calls' & Hcall & Hcalls & ->). simpl.
    by rewrite <- (tracks_outcome e1 f call (Raised x)) by eauto using workers_run_tracks.
Qed.
End Gathering.

(** *** A run of the pool that finishes every call *)

Section Runs.
Context {A : Type}.
Implicit Types (e : executor A) (call : unit → outcome A) (f : nat).

Lemma result_each_settled fs : ∀ e os,
  Forall2 (λ f o, outcome_of e f = Some o) fs os →
  result_each fs e (comprehension (λ o, o) os) e.
Proof.
  induction fs as [|f fs IH]; intros e os Hos.
  - apply Forall2_nil_inv_l in Hos as ->. constructor.
  - apply Forall2_cons_inv_l in Hos as (o & os' & Ho & Hos & ->). simpl.
    destruct o as [v|x]; simpl.
    + replace (comprehension (λ o, o) os' ≫= λ ys, mret (v :: ys))
        with ((v ::.) <$> comprehension (λ o, o) os')
        by (by destruct (comprehension _ os')).
      apply (result_each_returned f fs e e); [done|by apply IH].
    + by apply (result_each_raised f fs e e).
Qed.

Lemma submit_all_max_workers {X} (call_of : X → unit → outcome A) xs : ∀ e,
  max_workers (submit_all call_of xs e).1 = max_workers e.
Proof. induction xs as [|x xs IH]; intros e; simpl; [done|]. by rewrite IH. Qed.

Lemma submit_all_drained {X} (call_of : X → unit → outcome A) xs : ∀ e,
  (0 < max_workers e)%nat →
  submit_each call_of xs e (submit_all call_of xs e).2 (drain (submit_all call_of xs e).1).
Proof.
  induction xs as [|x xs IH]; intros e He; simpl.
  - constructor. by apply workers_run_drain.
  - apply (submit_each_cons call_of x xs e e); [done|]. by apply IH.
Qed.

Lemma tracks_drained e f call :
  tracks (drain e) f call → outcome_of (drain e) f = Some (call ()).
Proof.
  unfold tracks, outcome_of, drain. simpl. rewrite list_lookup_fmap.
  destruct (futures e !! f) as [[c|c|o]|]; simpl; intros [H|[H|H]]; congruence.
Qed.

(** Submitting everything, letting the pool finish, and reading the
    futures in order is a run of the two comprehensions. *)
Lemma gather_drained {X} (call_of : X → unit → outcome A) xs e :
  (0 < max_workers e)%nat →
  submit_each call_of xs e (submit_all call_of xs e).2 (drain (submit_all call_of xs e).1) ∧
  result_each (submit_all call_of xs e).2 (drain (submit_all call_of xs e).1)
    (comprehension (λ x, call_of x ()) xs) (drain (submit_all call_of xs e).1).
Proof.
  intros He. pose proof (submit_all_drained call_of xs e He) as Hsub. split; [done|].
  apply submit_each_tracks in Hsub.
  replace (comprehension (λ x, call_of x ()) xs)
    with (comprehension (λ o, o) ((λ x, call_of x ()) <$> xs)).
  - apply result_each_settled. apply Forall2_fmap_r, Forall2_flip.
    eapply Forall2_impl; [done|]. intros x f. apply tracks_drained.
  - clear. induction xs as [|x xs IH]; [done|]. rewrite fmap_cons. simpl. by rewrite IH.
Qed.
End Runs.

(** *** The pool never exceeds its size *)

Section Busy.
Context {A : Type}.
Implicit Types (e : executor A) (st : future_state A).

Lemma busy_middle n (pre post : list (future_state A)) st :
  busy (Executor n (pre ++ st :: post)) =
  (busy (Executor n pre) + (if is_running st then 1 else 0) + busy (Executor n post))%nat.
Proof.
  unfold busy. cbn [futures]. rewrite filter_app, length_app.
  destruct st;
    [rewrite filter_cons_False by done|rewrite filter_cons_True by done
    |rewrite filter_cons_False by done]; simpl; lia.
Qed.

Lemma busy_insert n (l : list (future_state A)) k st st' :
  l !! k = Some st →
  (busy (Executor n (<[k := st']> l)) + (if is_running st then 1 else 0) =
   busy (Executor n l) + (if is_running st' then 1 else 0))%nat.
Proof.
  intros Hk. rewrite <- (take_drop_middle l k st Hk) at 2.
  assert (length (take k l) = k) as Hlen.
  { apply length_take_le. apply lookup_lt_Some in Hk. lia. }
  rewrite <- (take_drop_middle l k st Hk) at 1.
  rewrite <- Hlen at 1. rewrite insert_middle, !busy_middle. lia.
Qed.

Lemma worker_step_busy e e' :
  worker_step e e' → (busy e ≤ max_workers e)%nat → (busy e' ≤ max_workers e')%nat.
Proof.
  intros [[n l] k c Hk Hfree|[n l] k c Hk] Hle; simpl in *.
  - pose proof (busy_insert n l k _ (Running c) Hk). simpl in *. lia.
  - pose proof (busy_insert n l k _ (Finished (c ())) Hk). simpl in *. lia.
Qed.
Lemma pool_step_busy e e' :
  pool_step e e' → (busy e ≤ max_workers e)%nat → (busy e' ≤ max_workers e')%nat.
Proof.
  intros [e0 e1 Hw|e0 c]; [by apply worker_step_busy|].
  destruct e0 as [n l]. cbn [submit fst max_workers futures] in *.
  rewrite busy_middle. change (busy (Executor n [])) with 0%nat. simpl. lia.
Qed.

(** A pool of [n] workers never makes more than [n] calls at a time. *)
Lemma pool_never_overbooked n e :
  rtc pool_step (ThreadPoolExecutor n) e → (busy e ≤ n)%nat.
Proof.
  intros Hrun. rewrite <- (pool_run_max_workers _ _ Hrun : max_workers e = n).
  revert e Hrun. apply (rtc_ind_r (λ e, busy e ≤ max_workers e)%nat).
  - unfold busy. simpl. lia.
  - intros e1 e2 _ Hstep IH. by apply (pool_step_busy e1).
Qed.
End Busy.

End FuturesFacts.

(** * The specification, claim by claim *)

(** ** Cells 2-4 *)

Module PipelineSpec.
Import Py PyFacts Pipeline PipelineFacts.

Section Statements.
Context {Series : Type}.
Variable read_hdf : string → outcome (gmap string Series).
Variable corr : Series → Series → float.
Implicit Types (ns : @namespace Series) (fns : list string).

(** C7. When the loading loop of cell 3 completes, the keys of [series]
    are exactly the file names, and [series[fn]] is the ['close'] column
    of the data frame read from [fn], for every file name [fn]. *)
Theorem load_keys_and_values fns (s : gmap string Series) :
  load read_hdf fns = Returned s →
  dom s = list_to_set fns ∧
  ∀ fn, fn ∈ fns →
    ∃ df c, read_hdf fn = Returned df ∧ column df "close" = Returned c ∧ s !! fn = Some c.
Proof.
  intros Hload. apply load_loop_spec in Hload as (Hdom & Hin & _). split.
  - rewrite Hdom. set_solver.
  - intros fn Hfn. destruct (Hin fn Hfn) as (df & c & ? & ? & ?).
    exists df, c. by rewrite column_Returned.
Qed.

(** C1. When the double loop of cell 4 completes, the keys of [results]
    are exactly the ordered pairs [(a, b)] of distinct file names, no key
    occurs twice, there are [n * (n - 1)] of them for [n] (distinct) file
    names, in the order the loop visits the pairs, and the value under
    [(a, b)] is [series[a].corr(series[b])]. *)
Theorem correlate_keys_and_values fns ns ns' :
  correlate corr fns ns = Returned ns' →
  (∀ a b, (a, b) ∈ keys (results ns') ↔ a ∈ fns ∧ b ∈ fns ∧ a ≠ b) ∧
  NoDup (keys (results ns')) ∧
  (NoDup fns →
     keys (results ns') = task_keys fns ∧
     length (keys (results ns')) = (length fns * (length fns - 1))%nat) ∧
  (∀ kv, kv ∈ items (results ns') → stored corr (series ns) kv).
Proof.
  intros (_ & vs & Hres & Hkeys & Hvals)%correlate_spec. rewrite Hres. split_and!.
  - intros a b. rewrite keys_update, Hkeys, elem_of_task_keys.
    split; [intros [[]%elem_of_nil|]|]; auto.
  - apply keys_update_NoDup, NoDup_nil_2.
  - intros Hnd. rewrite update_fresh.
    + simpl. unfold keys. rewrite Hkeys. split; [done|]. by apply task_keys_length.
    + simpl. rewrite Hkeys. by apply task_keys_NoDup.
  - intros kv [[]%elem_of_nil|Hin]%elem_of_update.
    by apply (proj1 (Forall_forall _ _) Hvals).
Qed.

(** C6. The double loop of cell 4 reads [series] and leaves it as the
    loading loop built it: afterwards [series] is the same mapping, and
    [series[fn]] is still the ['close'] column read from [fn]. *)
Theorem correlate_leaves_series fns (s : gmap string Series) r0 ns' :
  load read_hdf fns = Returned s →
  correlate corr fns (Namespace s r0) = Returned ns' →
  series ns' = s ∧
  ∀ fn, fn ∈ fns →
    ∃ df c, read_hdf fn = Returned df ∧ column df "close" = Returned c ∧
            series ns' !! fn = Some c.
Proof.
  intros Hload [Hs _]%correlate_spec. simpl in Hs. rewrite Hs. split; [done|].
  apply load_loop_spec in Hload as (_ & Hin & _).
  intros fn Hfn. destruct (Hin fn Hfn) as (df & c & ? & ? & ?).
  exists df, c. by rewrite column_Returned.
Qed.

(** C2, as amended.  For a non-empty result mapping none of whose values
    is NaN, the reduction of cell 4 returns an entry of the mapping whose
    value is [>=] the value of every entry. *)
Theorem best_pair_maximum_without_nan ns :
  results ns ≠ [] →
  (∀ kv, kv ∈ items (results ns) → is_nan kv.2 = false) →
  ∃ r, best_pair ns = Returned r ∧ r ∈ items (results ns) ∧
       ∀ kv, kv ∈ items (results ns) → float_ge r.2 kv.2 = true.
Proof.
  unfold best_pair, items. destruct (results ns) as [|kv0 d]; [done|].
  intros _ Hnan. simpl. eexists. split_and!; [done|apply max_scan_elem|].
  by apply (max_scan_ge snd).
Qed.

(** C3. When two (or more) entries of the result mapping hold the maximum
    value, the reduction returns the one that comes first in the
    mapping's iteration order: the returned entry holds the maximum and
    no entry before it does. *)
Theorem best_pair_first_of_ties ns i j m1 m2 :
  i ≠ j →
  items (results ns) !! i = Some m1 →
  items (results ns) !! j = Some m2 →
  is_max snd (items (results ns)) m1 →
  is_max snd (items (results ns)) m2 →
  ∃ n r, best_pair ns = Returned r ∧
         items (results ns) !! n = Some r ∧
         is_max snd (items (results ns)) r ∧
         ∀ n' m, items (results ns) !! n' = Some m →
                 is_max snd (items (results ns)) m → (n ≤ n')%nat.
Proof.
  unfold best_pair, items. intros _ Hi _ Hm1 _.
  assert (∀ kv, kv ∈ results ns → is_nan kv.2 = false) as Hnan.
  { intros kv Hkv. by destruct (float_ge_not_nan _ _ (Hm1 kv Hkv)). }
  destruct (results ns) as [|kv0 d] eqn:Hd; [done|]. simpl.
  destruct (max_scan_first snd d kv0 [] []) as (pre & post & Heq & Hpre);
    [done|by intros ? ?%elem_of_nil..|].
  simpl in Heq. exists (length pre), (max_scan snd kv0 d). split_and!.
  - done.
  - rewrite Heq. by apply list_lookup_middle.
  - by apply max_scan_ge.
  - intros n' m Hn' Hm. destruct (decide (length pre ≤ n')%nat) as [|Hlt]; [done|].
    exfalso. rewrite Heq in Hn'. rewrite lookup_app_l in Hn' by lia.
    apply list_elem_of_lookup_2 in Hn'.
    pose proof (float_gt_not_ge _ _ (Hpre _ Hn')) as Hnot.
    rewrite (Hm (max_scan snd kv0 d)) in Hnot; [done|apply max_scan_elem].
Qed.

(** C9. The file list of cell 2 is sorted in ascending order, so two runs
    that [glob] lists the same files for, in whatever order, and that
    read the same contents, use the same file list, visit the same pairs
    in the same order, and end with the same result mapping and the same
    reported entry. *)
Theorem run_deterministic (globbed1 globbed2 : list string) :
  globbed1 ≡ₚ globbed2 →
  Sorted str_le (filenames globbed1) ∧
  filenames globbed1 = filenames globbed2 ∧
  task_keys (filenames globbed1) = task_keys (filenames globbed2) ∧
  run read_hdf corr globbed1 = run read_hdf corr globbed2.
Proof.
  intros Hp. unfold run, filenames. rewrite (sorted_of_Permutation _ _ Hp).
  split_and!; [apply sorted_Sorted|done..].
Qed.
End Statements.

(** *** On the sample directory *)

Lemma load_keys_and_values_witness :
  let fns := filenames Sample.globbed in
  load Sample.read_hdf fns = Returned Sample.loaded ∧
  dom Sample.loaded = list_to_set fns ∧
  ∀ fn, fn ∈ fns →
    ∃ df c, Sample.read_hdf fn = Returned df ∧ column df "close" = Returned c ∧
            Sample.loaded !! fn = Some c.
Proof.
  intros fns.
  assert (load Sample.read_hdf fns = Returned Sample.loaded) as Hload by (vm_compute; reflexivity).
  split; [exact Hload|]. exact (load_keys_and_values Sample.read_hdf fns _ Hload).
Defined.

Lemma correlate_keys_and_values_witness :
  let fns := filenames Sample.globbed in
  let ns := Namespace Sample.loaded [] in
  let ns' := Namespace Sample.loaded Sample.correlations in
  correlate Sample.corr fns ns = Returned ns' ∧
  (∀ a b, (a, b) ∈ keys (results ns') ↔ a ∈ fns ∧ b ∈ fns ∧ a ≠ b) ∧
  NoDup (keys (results ns')) ∧
  (NoDup fns →
     keys (results ns') = task_keys fns ∧
     length (keys (results ns')) = (length fns * (length fns - 1))%nat) ∧
  (∀ kv, kv ∈ items (results ns') → stored Sample.corr (series ns) kv).
Proof.
  intros fns ns ns'.
  assert (correlate Sample.corr fns ns = Returned ns') as Hrun by (vm_compute; reflexivity).
  split; [exact Hrun|]. exact (correlate_keys_and_values Sample.corr fns ns ns' Hrun).
Defined.

Lemma correlate_leaves_series_witness :
  let fns := filenames Sample.globbed in
  let ns' := Namespace Sample.loaded Sample.correlations in
  load Sample.read_hdf fns = Returned Sample.loaded ∧
  correlate Sample.corr fns (Namespace Sample.loaded []) = Returned ns' ∧
  series ns' = Sample.loaded ∧
  ∀ fn, fn ∈ fns →
    ∃ df c, Sample.read_hdf fn = Returned df ∧ column df "close" = Returned c ∧
            series ns' !! fn = Some c.
Proof.
  intros fns ns'.
  assert (load Sample.read_hdf fns = Returned Sample.loaded) as Hload by (vm_compute; reflexivity).
  assert (correlate Sample.corr fns (Namespace Sample.loaded []) = Returned ns') as Hrun
    by (vm_compute; reflexivity).
  split; [exact Hload|]. split; [exact Hrun|].
  exact (correlate_leaves_series Sample.read_hdf Sample.corr fns _ [] ns' Hload Hrun).
Defined.

(** C2 as it was stated fails on the sample directory: the reduction
    returns the first entry, whose value is NaN, and NaN is not [>=] the
    value [0.5] of another entry. *)
Lemma best_pair_nan_counterexample :
  let ns := Namespace Sample.loaded Sample.correlations in
  correlate Sample.corr (filenames Sample.globbed) (Namespace Sample.loaded []) = Returned ns ∧
  results ns ≠ [] ∧
  best_pair ns = Returned ("../data/json/x.h5", "../data/json/y.h5", nan)%string ∧
  ("../data/json/y.h5", "../data/json/z.h5", 0.5%float)%string ∈ items (results ns) ∧
  float_ge nan 0.5 = false ∧
  ¬ ∃ r, best_pair ns = Returned r ∧ r ∈ items (results ns) ∧
         ∀ kv, kv ∈ items (results ns) → float_ge r.2 kv.2 = true.
Proof.
  intros ns.
  assert (("../data/json/y.h5", "../data/json/z.h5", 0.5%float)%string ∈ items (results ns))
    as Hin.
  { simpl. unfold items, Sample.correlations. do 3 right. left. }
  split_and!; [vm_compute; reflexivity|done|reflexivity|exact Hin|reflexivity|].
  intros (r & [= <-] & _ & Hmax). by specialize (Hmax _ Hin).
Qed.

Lemma best_pair_maximum_without_nan_witness :
  let ns := Namespace (∅ : gmap string (list Z)) Sample.correlations_yz in
  results ns ≠ [] ∧
  (∀ kv, kv ∈ items (results ns) → is_nan kv.2 = false) ∧
  ∃ r, best_pair ns = Returned r ∧ r ∈ items (results ns) ∧
       ∀ kv, kv ∈ items (results ns) → float_ge r.2 kv.2 = true.
Proof.
  intros ns.
  assert (results ns ≠ []) as Hne by done.
  assert (∀ kv, kv ∈ items (results ns) → is_nan kv.2 = false) as Hnan.
  { intros kv Hkv. simpl in Hkv. unfold items, Sample.correlations_yz in Hkv.
    repeat (apply elem_of_cons in Hkv as [-> | Hkv]; [reflexivity|]).
    by apply elem_of_nil in Hkv. }
  split; [exact Hne|]. split; [exact Hnan|].
  exact (best_pair_maximum_without_nan ns Hne Hnan).
Defined.

Lemma best_pair_first_of_ties_witness :
  let ns := Namespace (∅ : gmap string (list Z)) Sample.correlations_yz in
  let m1 := ("../data/json/y.h5", "../data/json/z.h5", 0.5%float)%string in
  let m2 := ("../data/json/z.h5", "../data/json/y.h5", 0.5%float)%string in
  0%nat ≠ 1%nat ∧
  items (results ns) !! 0%nat = Some m1 ∧
  items (results ns) !! 1%nat = Some m2 ∧
  is_max snd (items (results ns)) m1 ∧
  is_max snd (items (results ns)) m2 ∧
  ∃ n r, best_pair ns = Returned r ∧
         items (results ns) !! n = Some r ∧
         is_max snd (items (results ns)) r ∧
         ∀ n' m, items (results ns) !! n' = Some m →
                 is_max snd (items (results ns)) m → (n ≤ n')%nat.
Proof.
  intros ns m1 m2.
  assert (∀ m, m ∈ [m1; m2] → is_max snd (items (results ns)) m) as Hmax.
  { intros m Hm kv Hkv. simpl in Hkv. unfold items, Sample.correlations_yz in Hkv.
    repeat (apply elem_of_cons in Hm as [-> | Hm]);
      [ .. | by apply elem_of_nil in Hm];
      (repeat (apply elem_of_cons in Hkv as [-> | Hkv]; [reflexivity|]);
       by apply elem_of_nil in Hkv). }
  assert (is_max snd (items (results ns)) m1) as H1 by (apply Hmax; left).
  assert (is_max snd (items (results ns)) m2) as H2 by (apply Hmax; right; left).
  assert (0%nat ≠ 1%nat) as Hij by lia.
  split; [exact Hij|]. split; [reflexivity|]. split; [reflexivity|].
  split; [exact H1|]. split; [exact H2|].
  exact (best_pair_first_of_ties ns 0%nat 1%nat m1 m2 Hij eq_refl eq_refl H1 H2).
Defined.

Lemma run_deterministic_witness :
  let globbed2 := ["../data/json/x.h5"; "../data/json/y.h5"; "../data/json/z.h5"]%string in
  Sample.globbed ≡ₚ globbed2 ∧
  Sorted str_le (filenames Sample.globbed) ∧
  filenames Sample.globbed = filenames globbed2 ∧
  task_keys (filenames Sample.globbed) = task_keys (filenames globbed2) ∧
  run Sample.read_hdf Sample.corr Sample.globbed = run Sample.read_hdf Sample.corr globbed2.
Proof.
  intros globbed2.
  assert (Sample.globbed ≡ₚ globbed2) as Hp.
  { unfold Sample.globbed, globbed2.
    apply (Permutation_cons_append ["../data/json/x.h5"; "../data/json/y.h5"]%string). }
  split; [exact Hp|].
  exact (run_deterministic Sample.read_hdf Sample.corr _ _ Hp).
Defined.

End PipelineSpec.

(** ** Cells 9-16 *)

Module FuturesSpec.
Import Py PyFacts Futures FuturesFacts.

(** C10. The sequential exercise of cell 16 ends with a list of exactly 20
    values: row-major over [(i, j)] in [range(5) x range(5)], the diagonal
    skipped, [i + j] where [i < j] and [i - j] where [i > j]. *)
Theorem cell16_values :
  ∃ results,
    cell16 = Returned results ∧
    length results = 20%nat ∧
    results = exercise_values (range 5) (range 5) ∧
    results = [1; 2; 3; 4;  1; 3; 4; 5;  2; 1; 5; 6;  3; 2; 1; 7;  4; 3; 2; 1].
Proof.
  exists (exercise_values (range 5) (range 5)). split_and!; [|done..].
  unfold cell16. by rewrite exercise_outer_values.
Qed.

(** C5. Whatever the pool and the main thread do after a call has been
    submitted, [result()] on its future comes back, and only in one way: it
    raises the exception that the call raised, or it returns the value that
    the call returned. *)
Theorem result_propagates_outcome {A : Type} (e : executor A) call e1 :
  (0 < max_workers e)%nat →
  rtc pool_step (submit e call).1 e1 →
  (∀ x, call () = Raised x →
     (∃ e2, result e1 (submit e call).2 (Raised x) e2) ∧
     ∀ o e2, result e1 (submit e call).2 o e2 → o = Raised x) ∧
  (∀ v, call () = Returned v →
     (∃ e2, result e1 (submit e call).2 (Returned v) e2) ∧
     ∀ o e2, result e1 (submit e call).2 o e2 → o = Returned v).
Proof.
  intros He Hrun.
  assert (tracks e1 (submit e call).2 call) as Htr.
  { eapply pool_run_tracks; [done|]. apply submit_tracks_new. }
  assert (0 < max_workers e1)%nat as He1.
  { by rewrite (pool_run_max_workers _ _ Hrun). }
  assert ((∃ e2, result e1 (submit e call).2 (call ()) e2) ∧
          ∀ o e2, result e1 (submit e call).2 o e2 → o = call ()) as [Hex Huniq].
  { split.
    - exists (drain e1). split; [by apply workers_run_drain|by apply tracks_drain].
    - intros o e2 [Hw Ho]. eapply tracks_outcome; [|done]. by eapply workers_run_tracks. }
  split; intros ? Hcall; rewrite <- Hcall; done.
Qed.

(** [e.submit(slowadd, 1, 2, delay=-1)] on the pool of cell 9: [sleep]
    raises [ValueError] in the worker and [result()] raises it again. *)
Lemma result_propagates_outcome_witness :
  let call := λ _ : unit, slowadd 1 2 (-1) in
  (0 < max_workers e)%nat ∧
  rtc pool_step (submit e call).1 (submit e call).1 ∧
  (∀ x, call () = Raised x →
     (∃ e2, result (submit e call).1 (submit e call).2 (Raised x) e2) ∧
     ∀ o e2, result (submit e call).1 (submit e call).2 o e2 → o = Raised x) ∧
  (∀ v, call () = Returned v →
     (∃ e2, result (submit e call).1 (submit e call).2 (Returned v) e2) ∧
     ∀ o e2, result (submit e call).1 (submit e call).2 o e2 → o = Returned v).
Proof.
  intros call.
  assert (0 < max_workers e)%nat as He by (simpl; lia).
  split; [exact He|]. split; [apply rtc_refl|].
  exact (result_propagates_outcome e call _ He (rtc_refl _ _)).
Defined.

(** C4 on the code.  Every run of cell 13 ends with ten times [2], the
    value of [slowadd(1, 1)], whereas cell 12 ends with [0, 2, ..., 18]:
    the submitted calls are not the calls of the sequential version. *)
Theorem cell13_differs_from_cell12 (e0 : executor Z) results e' :
  cell13 e0 results e' →
  results = Returned [2; 2; 2; 2; 2; 2; 2; 2; 2; 2] ∧
  cell12 = Returned [0; 2; 4; 6; 8; 10; 12; 14; 16; 18] ∧
  results ≠ cell12.
Proof.
  intros (fs & e1 & Hsub%submit_each_tracks & Hres).
  assert (results = Returned [2; 2; 2; 2; 2; 2; 2; 2; 2; 2]) as ->.
  { rewrite (result_each_outcomes _ _ _ _ Hres
      ((λ (i : Z) (_ : unit), slowadd 1 1 1) <$> range 10)); [done|].
    by apply Forall2_fmap_l. }
  done.
Qed.

(** A run of cell 13 on the pool of cell 9, after cells 9 and 10. *)
Lemma cell13_differs_from_cell12_witness :
  cell13 (drain (cell9 e).1) (Returned [2; 2; 2; 2; 2; 2; 2; 2; 2; 2])
    (drain (submit_all (λ (i : Z) (_ : unit), slowadd 1 1 1) (range 10) (drain (cell9 e).1)).1) ∧
  Returned [2; 2; 2; 2; 2; 2; 2; 2; 2; 2] = Returned [2; 2; 2; 2; 2; 2; 2; 2; 2; 2] ∧
  cell12 = Returned [0; 2; 4; 6; 8; 10; 12; 14; 16; 18] ∧
  Returned [2; 2; 2; 2; 2; 2; 2; 2; 2; 2] ≠ cell12.
Proof.
  assert (cell13 (drain (cell9 e).1) (Returned [2; 2; 2; 2; 2; 2; 2; 2; 2; 2])
    (drain (submit_all (λ (i : Z) (_ : unit), slowadd 1 1 1) (range 10) (drain (cell9 e).1)).1))
    as Hrun.
  { eexists _, _. apply (gather_drained (λ (i : Z) (_ : unit), slowadd 1 1 1)). simpl. lia. }
  split; [exact Hrun|]. exact (cell13_differs_from_cell12 _ _ _ Hrun).
Defined.

End FuturesSpec.

(** * Further behaviour of the cells *)

(** ** Cells 2-4: errors, small inputs and the order of the reported pair *)

Module PipelineBehaviour.
Import Py PyFacts Pipeline PipelineFacts.

(** *** The order of [float], NaN included *)

Lemma SFltb_irrefl x : SFltb x x = false.
Proof.
  unfold SFltb. destruct x as [[]|[]| |[] m e]; simpl; try done;
    rewrite Z.compare_refl; change (Pos.compare_cont Eq m m) with (Pos.compare m m);
    by rewrite Pos.compare_refl.
Qed.

Lemma SFltb_above x y z : SFltb y x = false → SFltb y z = true → SFleb z x = false.
Proof.
  unfold SFltb, SFleb. sf_destruct x; sf_destruct y; sf_destruct z; simpl; try done; sf_cases.
Qed.

Lemma float_gt_irrefl x : float_gt x x = false.
Proof. unfold float_gt. rewrite FloatAxioms.ltb_spec. apply SFltb_irrefl. Qed.

(** An entry that [best] does not lose to stays unable to match whatever
    strictly beats [best]. *)
Lemma float_gt_above x best y :
  float_gt x best = false → float_gt y best = true → float_ge x y = false.
Proof.
  unfold float_gt, float_ge. rewrite !FloatAxioms.ltb_spec, FloatAxioms.leb_spec.
  apply SFltb_above.
Qed.

Lemma float_not_ge_not_gt x y : float_ge x y = false → float_gt x y = false.
Proof.
  intros Hge. destruct (float_gt x y) eqn:Hgt; [|done].
  apply float_gt_ge in Hgt. congruence.
Qed.

Lemma float_gt_not_nan x y : float_gt x y = true → is_nan x = false.
Proof. intros H%float_gt_ge. by apply float_ge_not_nan in H as [? _]. Qed.

Lemma float_gt_nan x y : is_nan y = true → float_gt x y = false.
Proof.
  intros Hy. unfold float_gt. rewrite FloatAxioms.ltb_spec.
  destruct (Prim2SF y) eqn:Hsf; try done;
    (assert (is_nan y = false) as Hn by (apply is_nan_spec; congruence); congruence).
Qed.

Lemma max_scan_nan {A} (key : A → float) best l :
  is_nan (key best) = true → max_scan key best l = best.
Proof.
  intros Hnan. induction l as [|y l IH]; simpl; [done|]. by rewrite float_gt_nan.
Qed.

(** *** The scan of [max] on any values *)

Section MaxAnyFloat.
Context {A : Type} (key : A → float).

Lemma max_scan_split l : ∀ best seen skipped,
  (seen = [] ∨ is_nan (key best) = false) →
  (∀ x, x ∈ seen → float_ge (key x) (key best) = false) →
  (∀ x, x ∈ skipped → float_gt (key x) (key best) = false) →
  ∃ pre post,
    seen ++ best :: skipped ++ l = pre ++ max_scan key best l :: post ∧
    (pre = [] ∨ is_nan (key (max_scan key best l)) = false) ∧
    (∀ x, x ∈ pre → float_ge (key x) (key (max_scan key best l)) = false) ∧
    (∀ x, x ∈ post → float_gt (key x) (key (max_scan key best l)) = false).
Proof.
  induction l as [|y l IH]; intros best seen skipped Hnan Hseen Hskip; simpl.
  - exists seen, skipped. by rewrite app_nil_r.
  - destruct (float_gt (key y) (key best)) eqn:Hgt.
    + destruct (IH y (seen ++ best :: skipped) []) as (pre & post & Heq & Hpre);
        [right; by eapply float_gt_not_nan| |by intros ? ?%elem_of_nil|].
      * intros x [Hx|[-> | Hx]%elem_of_cons]%elem_of_app.
        -- apply float_gt_above with (key best); [|done].
           by apply float_not_ge_not_gt, Hseen.
        -- by apply float_gt_not_ge.
        -- apply float_gt_above with (key best); [by apply Hskip|done].
      * exists pre, post. split; [|done]. rewrite <- Heq. by rewrite <- app_assoc.
    + destruct (IH best seen (skipped ++ [y])) as (pre & post & Heq & Hpre); [done..| |].
      * intros x [Hx|Hx%list_elem_of_singleton]%elem_of_app; [auto|by subst x].
      * exists pre, post. split; [|done]. rewrite <- Heq. by rewrite <- app_assoc.
Qed.
End MaxAnyFloat.

(** *** The order of the task keys *)

Lemma elem_of_filenames globbed fn : fn ∈ filenames globbed ↔ fn ∈ globbed.
Proof. unfold filenames. by rewrite sorted_Permutation. Qed.

Lemma task_keys_nil fns : (∀ a b, a ∈ fns → b ∈ fns → a = b) → task_keys fns = [].
Proof.
  intros Hsame. apply elem_of_nil_inv. intros [a b] (Ha & Hb & Hne)%elem_of_task_keys.
  by apply Hne, Hsame.
Qed.




Section Behaviour.
Context {Series : Type}.
Variable read_hdf : string → outcome (gmap string Series).
Variable corr : Series → Series → float.
Implicit Types (ns : @namespace Series) (fns : list string).

Lemma load_loop_Raised fns : ∀ (s : gmap string Series) e,
  load_loop read_hdf fns s = Raised e ↔
  ∃ pre fn post, fns = pre ++ fn :: post ∧ Forall (loads read_hdf) pre ∧ fails_with read_hdf fn e.
Proof.
  induction fns as [|fn0 fns IH]; intros s e; simpl.
  - split; [done|]. intros (pre & fn & post & Heq & _). by destruct pre.
  - destruct (read_hdf fn0) as [df|e0] eqn:Hread; simpl.
    + unfold column. destruct (df !! "close"%string) as [c|] eqn:Hcol; simpl.
      * rewrite IH. split.
        -- intros (pre & fn & post & -> & Hpre & Hfail). exists (fn0 :: pre), fn, post.
           split_and!; [done| |done]. constructor; [|done]. by exists df, c.
        -- intros (pre & fn & post & Heq & Hpre & Hfail). destruct pre as [|fn1 pre].
           ++ simplify_eq/=. destruct Hfail as [?|(df' & ? & ? & _)]; congruence.
           ++ simplify_eq/=. apply Forall_cons in Hpre as [_ Hpre]. by exists pre, fn, post.
      * split.
        -- intros [= <-]. exists [], fn0, fns. split_and!; [done..|]. right. by exists df.
        -- intros (pre & fn & post & Heq & Hpre & Hfail). destruct pre as [|fn1 pre].
           ++ simplify_eq/=. destruct Hfail as [?|(df' & ? & ? & ->)]; congruence.
           ++ simplify_eq/=. apply Forall_cons in Hpre as [(df' & c & ? & ?) _]. congruence.
    + split.
      * intros [= <-]. exists [], fn0, fns. split_and!; [done..|]. by left.
      * intros (pre & fn & post & Heq & Hpre & Hfail). destruct pre as [|fn1 pre].
        -- simplify_eq/=. destruct Hfail as [?|(df' & ? & _)]; congruence.
        -- simplify_eq/=. apply Forall_cons in Hpre as [(df' & c & ? & ?) _]. congruence.
Qed.

Lemma correlate_items fns ns ns' :
  correlate corr fns ns = Returned ns' →
  series ns' = series ns ∧
  (∀ a b, (a, b) ∈ keys (results ns') ↔ a ∈ fns ∧ b ∈ fns ∧ a ≠ b) ∧
  NoDup (keys (results ns')) ∧
  (NoDup fns → keys (results ns') = task_keys fns) ∧
  (∀ kv, kv ∈ items (results ns') → stored corr (series ns) kv).
Proof.
  intros (Hs & vs & Hres & Hkeys & Hvals)%correlate_spec. rewrite Hres. split_and!.
  - done.
  - intros a b. rewrite keys_update, Hkeys, elem_of_task_keys.
    split; [intros [[]%elem_of_nil|]|]; auto.
  - apply keys_update_NoDup, NoDup_nil_2.
  - intros Hnd. rewrite update_fresh.
    + simpl. unfold keys. by rewrite Hkeys.
    + simpl. rewrite Hkeys. by apply task_keys_NoDup.
  - intros kv [[]%elem_of_nil|Hin]%elem_of_update.
    by apply (proj1 (Forall_forall _ _) Hvals).
Qed.

Lemma correlate_after_load fns (s : gmap string Series) r0 :
  load read_hdf fns = Returned s →
  ∃ ns', correlate corr fns (Namespace s r0) = Returned ns'.
Proof.
  intros (_ & Hin & _)%load_loop_spec. apply correlate_total. simpl.
  intros fn Hfn. destruct (Hin fn Hfn) as (df & c & _ & _ & ->). by eexists.
Qed.

(** X1. The loading loop of cell 3 completes exactly when every file can
    be read and has a ['close'] column.  Otherwise it raises the exception
    of the first file in list order that fails: the one [read_hdf] raised,
    or [KeyError('close')] for a missing column. *)
Theorem load_outcome fns :
  ((∃ s, load read_hdf fns = Returned s) ↔ Forall (loads read_hdf) fns) ∧
  (∀ e, load read_hdf fns = Raised e ↔
        ∃ pre fn post, fns = pre ++ fn :: post ∧ Forall (loads read_hdf) pre ∧ fails_with read_hdf fn e).
Proof.
  split; [|intros e; apply load_loop_Raised]. split.
  - intros [s Hs]. apply load_loop_spec in Hs as (_ & Hin & _).
    apply Forall_forall. intros fn Hfn. destruct (Hin fn Hfn) as (df & c & ? & ? & _).
    by exists df, c.
  - intros Hall. apply load_loop_total. intros fn Hfn.
    by apply (proj1 (Forall_forall _ _) Hall).
Qed.

(** X2. After the loading loop of cell 3 has completed, the double loop
    of cell 4 over the same file names completes too: no [series[a]]
    raises [KeyError].  It leaves [series] as loaded and stores an entry
    with the correlation for every ordered pair of distinct file names. *)
Theorem correlate_completes_after_load fns (s : gmap string Series) r0 :
  load read_hdf fns = Returned s →
  ∃ ns', correlate corr fns (Namespace s r0) = Returned ns' ∧
         series ns' = s ∧
         ∀ a b, a ∈ fns → b ∈ fns → a ≠ b →
           ∃ v, (a, b, v) ∈ items (results ns') ∧ stored corr s (a, b, v).
Proof.
  intros Hload. destruct (correlate_after_load fns s r0 Hload) as [ns' Hrun].
  exists ns'. split; [done|].
  apply correlate_items in Hrun as (Hs & Hkeys & _ & _ & Hvals). split; [done|].
  intros a b Ha Hb Hne.
  assert ((a, b) ∈ keys (results ns')) as Hk by (by apply Hkeys).
  apply list_elem_of_fmap in Hk as ([k v] & Hk & Hin). simpl in Hk. subst k.
  exists v. split; [done|]. by apply Hvals in Hin.
Qed.

(** X3. When the directory holds no file or a single file (and that one
    loads), the result mapping is empty and the reduction of cell 4 raises
    [ValueError]: there is no pair to report. *)
Theorem run_too_few_files globbed (s : gmap string Series) :
  load read_hdf (filenames globbed) = Returned s →
  (∀ a b, a ∈ globbed → b ∈ globbed → a = b) →
  run read_hdf corr globbed = Raised (ValueError "max() arg is an empty sequence").
Proof.
  intros Hload Hsame. unfold run. rewrite Hload. simpl.
  destruct (correlate_after_load _ s [] Hload) as [ns' Hrun]. rewrite Hrun. simpl.
  apply correlate_spec in Hrun as (_ & vs & Hres & Hkeys & _).
  rewrite task_keys_nil in Hkeys.
  - apply fmap_nil_inv in Hkeys as ->. unfold best_pair. by rewrite Hres.
  - intros a b Ha Hb. apply Hsame; by apply elem_of_filenames.
Qed.

(** X4. When every file loads and there are two distinct file names,
    cells 2-4 run to their end and report an entry of the result mapping:
    two distinct file names of the directory with the correlation of
    their two series. *)
Theorem run_reports_a_pair globbed (s : gmap string Series) a0 b0 :
  load read_hdf (filenames globbed) = Returned s →
  a0 ∈ globbed → b0 ∈ globbed → a0 ≠ b0 →
  ∃ ns a b v,
    run read_hdf corr globbed = Returned (ns, (a, b, v)) ∧
    series ns = s ∧
    (a, b, v) ∈ items (results ns) ∧
    a ∈ globbed ∧ b ∈ globbed ∧ a ≠ b ∧
    stored corr s (a, b, v).
Proof.
  intros Hload Ha0 Hb0 Hne0. unfold run. rewrite Hload. simpl.
  destruct (correlate_after_load _ s [] Hload) as [ns' Hrun]. rewrite Hrun. simpl.
  apply correlate_items in Hrun as (Hs & Hkeys & _ & _ & Hvals).
  assert ((a0, b0) ∈ keys (results ns')) as Hk.
  { apply Hkeys. by rewrite !elem_of_filenames. }
  unfold best_pair, items in *. destruct (results ns') as [|kv0 d] eqn:Hres.
  { by apply elem_of_nil in Hk. }
  simpl. pose proof (max_scan_elem snd d kv0) as Hin.
  destruct (max_scan snd kv0 d) as [[a b] v] eqn:Hmax.
  assert ((a, b) ∈ keys (kv0 :: d)) as (Ha & Hb & Hne)%Hkeys
    by (by apply (list_elem_of_fmap_2 fst) in Hin).
  rewrite elem_of_filenames in Ha, Hb.
  exists ns', a, b, v. split_and!; [done..|by rewrite Hres|done|done|done|].
  by apply Hvals in Hin.
Qed.

(** X5. With or without NaN among the values, the reduction of cell 4 on
    a non-empty mapping returns an entry of the mapping such that no
    entry has a strictly greater value and no earlier entry has a value
    [>=] its value; an entry whose value is NaN is returned only when it
    is the first one. *)
Theorem best_pair_never_beaten ns :
  results ns ≠ [] →
  ∃ pre r post,
    best_pair ns = Returned r ∧
    items (results ns) = pre ++ r :: post ∧
    (∀ kv, kv ∈ items (results ns) → float_gt kv.2 r.2 = false) ∧
    (∀ kv, kv ∈ pre → float_ge kv.2 r.2 = false) ∧
    (is_nan r.2 = true → pre = []).
Proof.
  unfold best_pair, items. destruct (results ns) as [|kv0 d]; [done|]. intros _. simpl.
  destruct (max_scan_split snd d kv0 [] []) as (pre & post & Heq & Hnan & Hpre & Hpost);
    [by left|by intros ? ?%elem_of_nil..|].
  simpl in Heq. exists pre, (max_scan snd kv0 d), post. split_and!; [done..| |done|].
  - intros kv. rewrite Heq.
    intros [Hkv|[-> | Hkv]%elem_of_cons]%elem_of_app.
    + by apply float_not_ge_not_gt, Hpre.
    + apply float_gt_irrefl.
    + by apply Hpost.
  - intros Hr. destruct Hnan as [?|Hnan]; [done|congruence].
Qed.



(** X9. When the value of the first entry of the result mapping is NaN,
    the reduction of cell 4 returns that first entry, whatever the values
    of the other entries are. *)
Theorem best_pair_nan_first ns kv0 d :
  results ns = kv0 :: d →
  is_nan kv0.2 = true →
  best_pair ns = Returned kv0.
Proof.
  intros Hres Hnan. unfold best_pair, items. rewrite Hres. simpl.
  by rewrite max_scan_nan.
Qed.
End Behaviour.

(** *** On the sample directory *)



Lemma correlate_completes_after_load_witness :
  let fns := filenames Sample.globbed in
  load Sample.read_hdf fns = Returned Sample.loaded ∧
  ∃ ns', correlate Sample.corr fns (Namespace Sample.loaded []) = Returned ns' ∧
         series ns' = Sample.loaded ∧
         ∀ a b, a ∈ fns → b ∈ fns → a ≠ b →
           ∃ v, (a, b, v) ∈ items (results ns') ∧ stored Sample.corr Sample.loaded (a, b, v).
Proof.
  intros fns.
  assert (load Sample.read_hdf fns = Returned Sample.loaded) as Hload by (vm_compute; reflexivity).
  split; [exact Hload|].
  exact (correlate_completes_after_load Sample.read_hdf Sample.corr fns _ [] Hload).
Defined.

Lemma run_too_few_files_witness :
  let globbed := ["../data/json/x.h5"]%string in
  let s : gmap string (list Z) := {[ "../data/json/x.h5"%string := [1; 1; 1] ]} in
  load Sample.read_hdf (filenames globbed) = Returned s ∧
  (∀ a b, a ∈ globbed → b ∈ globbed → a = b) ∧
  run Sample.read_hdf Sample.corr globbed =
    Raised (ValueError "max() arg is an empty sequence").
Proof.
  intros globbed s.
  assert (load Sample.read_hdf (filenames globbed) = Returned s) as Hload
    by (vm_compute; reflexivity).
  assert (∀ a b, a ∈ globbed → b ∈ globbed → a = b) as Hsame.
  { intros a b Ha%list_elem_of_singleton Hb%list_elem_of_singleton. congruence. }
  split; [exact Hload|]. split; [exact Hsame|].
  exact (run_too_few_files Sample.read_hdf Sample.corr globbed s Hload Hsame).
Defined.

Lemma run_reports_a_pair_witness :
  let a0 := "../data/json/x.h5"%string in
  let b0 := "../data/json/y.h5"%string in
  load Sample.read_hdf (filenames Sample.globbed) = Returned Sample.loaded ∧
  a0 ∈ Sample.globbed ∧ b0 ∈ Sample.globbed ∧ a0 ≠ b0 ∧
  ∃ ns a b v,
    run Sample.read_hdf Sample.corr Sample.globbed = Returned (ns, (a, b, v)) ∧
    series ns = Sample.loaded ∧
    (a, b, v) ∈ items (results ns) ∧
    a ∈ Sample.globbed ∧ b ∈ Sample.globbed ∧ a ≠ b ∧
    stored Sample.corr Sample.loaded (a, b, v).
Proof.
  intros a0 b0.
  assert (load Sample.read_hdf (filenames Sample.globbed) = Returned Sample.loaded) as Hload
    by (vm_compute; reflexivity).
  assert (a0 ∈ Sample.globbed) as Ha by (unfold Sample.globbed; set_solver).
  assert (b0 ∈ Sample.globbed) as Hb by (unfold Sample.globbed; set_solver).
  assert (a0 ≠ b0) as Hne by done.
  split; [exact Hload|]. split; [exact Ha|]. split; [exact Hb|]. split; [exact Hne|].
  exact (run_reports_a_pair Sample.read_hdf Sample.corr Sample.globbed _ a0 b0 Hload Ha Hb Hne).
Defined.

Lemma best_pair_never_beaten_witness :
  let ns := Namespace Sample.loaded Sample.correlations in
  results ns ≠ [] ∧
  ∃ pre r post,
    best_pair ns = Returned r ∧
    items (results ns) = pre ++ r :: post ∧
    (∀ kv, kv ∈ items (results ns) → float_gt kv.2 r.2 = false) ∧
    (∀ kv, kv ∈ pre → float_ge kv.2 r.2 = false) ∧
    (is_nan r.2 = true → pre = []).
Proof.
  intros ns.
  assert (results ns ≠ []) as Hne by done.
  split; [exact Hne|]. exact (best_pair_never_beaten ns Hne).
Defined.

Lemma best_pair_nan_first_witness :
  let ns := Namespace Sample.loaded Sample.correlations in
  let kv0 := ("../data/json/x.h5", "../data/json/y.h5", nan)%string in
  let d := [ ("../data/json/x.h5", "../data/json/z.h5", nan);
             ("../data/json/y.h5", "../data/json/x.h5", nan);
             ("../data/json/y.h5", "../data/json/z.h5", 0.5%float);
             ("../data/json/z.h5", "../data/json/x.h5", nan);
             ("../data/json/z.h5", "../data/json/y.h5", 0.5%float) ]%string in
  results ns = kv0 :: d ∧
  is_nan kv0.2 = true ∧
  best_pair ns = Returned kv0.
Proof.
  intros ns kv0 d.
  assert (results ns = kv0 :: d) as Hres by reflexivity.
  assert (is_nan kv0.2 = true) as Hnan by reflexivity.
  split; [exact Hres|]. split; [exact Hnan|].
  exact (best_pair_nan_first ns kv0 d Hres Hnan).
Defined.



End PipelineBehaviour.

(** ** Cell 13: submitting in a loop and reading the futures in order *)

Module FuturesBehaviour.
Import Py PyFacts Futures FuturesFacts.

(** X8. On a pool with at least one worker, submitting one call per
    element of a list and then reading the futures in submission order
    can run to its end and gives, under every schedule of the pool, what
    the sequential list comprehension over the same calls gives: the list
    of their values, or the exception of the first call in submission
    order that raises. *)
Theorem gather_is_sequential {A X : Type} (call_of : X → unit → outcome A) xs (e0 : executor A) :
  (0 < max_workers e0)%nat →
  (∃ e', gather call_of xs e0 (comprehension (λ x, call_of x ()) xs) e') ∧
  ∀ results e', gather call_of xs e0 results e' →
                results = comprehension (λ x, call_of x ()) xs.
Proof.
  intros He0. split.
  - eexists _, _, _. apply gather_drained. done.
  - intros results e' (fs & e1 & Hsub%submit_each_tracks & Hres).
    rewrite (result_each_outcomes _ _ _ _ Hres (call_of <$> xs)) by (by apply Forall2_fmap_l).
    clear. induction xs as [|x xs IH]; [done|]. rewrite fmap_cons. simpl. by rewrite IH.
Qed.

(** Three calls of [slowadd] on the pool of cell 9, the second with a
    negative delay: the gathered result is the [ValueError] of [sleep],
    as for [[slowadd(1, 1, delay=d) for d in [1, -1, 2]]]. *)
Lemma gather_is_sequential_witness :
  let call_of := λ (d : Z) (_ : unit), slowadd 1 1 d in
  let failure := Raised (ValueError "sleep length must be non-negative") in
  (0 < max_workers e)%nat ∧
  comprehension (λ d, call_of d ()) [1; -1; 2] = failure ∧
  (∃ e', gather call_of [1; -1; 2] e (comprehension (λ d, call_of d ()) [1; -1; 2]) e') ∧
  ∀ results e', gather call_of [1; -1; 2] e results e' →
                results = comprehension (λ d, call_of d ()) [1; -1; 2].
Proof.
  intros call_of failure.
  assert (0 < max_workers e)%nat as He by (simpl; lia).
  split; [exact He|]. split; [reflexivity|].
  exact (gather_is_sequential call_of [1; -1; 2] e He).
Defined.

End FuturesBehaviour.
